(** * deno-compat: the Deno compatibility layer for Node.js and Bun

    A shallow embedding of [src/deno-compat-node.ts], [src/deno-compat-bun.ts],
    [src/runtime.ts] and [mod.ts], and the properties of the subprocess
    command adapter, the FFI type adapter and the global installation.

    The host runtime (Node's [child_process.spawn], [process.env], Bun's
    [bun:ffi]) is not part of the repository: it is a record of host
    primitives that every definition takes as an argument. *)

From Stdlib Require Import ZArith String Ascii List Bool Lia.
From Stdlib Require Import Floats.SpecFloat.
From stdpp Require Import base option list strings gmap.

Open Scope string_scope.
Open Scope list_scope.

(** ** JavaScript completions and errors *)

(** An error object: its constructor name and its message. *)
Record JsError := mkError { err_name : string; err_message : string }.

Definition Error (msg : string) : JsError := mkError "Error" msg.

(** The outcome of evaluating a piece of code that may [throw]. *)
Inductive Completion (A : Type) : Type :=
| Normal (a : A)
| Throw (e : JsError).
Arguments Normal {A} a.
Arguments Throw {A} e.

(** Sequencing: a [throw] skips the rest of the block. *)
#[global] Instance Completion_ret : MRet Completion := fun A a => Normal a.
#[global] Instance Completion_bind : MBind Completion := fun A B k c =>
  match c with
  | Normal a => k a
  | Throw e => Throw e
  end.

(** [xs.map(f)] where the callback may throw: the first throw aborts. *)
Fixpoint mapC {A B} (f : A -> Completion B) (xs : list A) : Completion (list B) :=
  match xs with
  | [] => Normal []
  | x :: xs' =>
      y ← f x;
      ys ← mapC f xs';
      Normal (y :: ys)
  end.

(** ** The FFI type adapter of [deno-compat-bun.ts] *)

(** The type handles of [bun:ffi]'s [FFIType] that the adapter uses. *)
Module FFIType.
Inductive t : Set :=
| void | bool | u8 | i8 | u16 | i16 | u32 | i32 | u64 | i64
| f32 | f64 | ptr | function.
End FFIType.

(** The [switch] of [transformFFIType]: cases are tried in order with [===]. *)
Definition transformFFIType (denoType : string) : Completion FFIType.t :=
  if String.eqb denoType "void" then Normal FFIType.void
  else if String.eqb denoType "bool" then Normal FFIType.bool
  else if String.eqb denoType "u8" then Normal FFIType.u8
  else if String.eqb denoType "i8" then Normal FFIType.i8
  else if String.eqb denoType "u16" then Normal FFIType.u16
  else if String.eqb denoType "i16" then Normal FFIType.i16
  else if String.eqb denoType "u32" then Normal FFIType.u32
  else if String.eqb denoType "i32" then Normal FFIType.i32
  else if String.eqb denoType "u64" then Normal FFIType.u64
  else if String.eqb denoType "i64" then Normal FFIType.i64
  else if String.eqb denoType "usize" then Normal FFIType.u64
  else if String.eqb denoType "isize" then Normal FFIType.i64
  else if String.eqb denoType "f32" then Normal FFIType.f32
  else if String.eqb denoType "f64" then Normal FFIType.f64
  else if String.eqb denoType "pointer" then Normal FFIType.ptr
  else if String.eqb denoType "buffer" then Normal FFIType.ptr
  else if String.eqb denoType "function" then Normal FFIType.function
  else Throw (Error ("FFI type not supported: " +:+ denoType)).

(** The fixed tag enumeration of the FFITypeDescriptor. *)
Definition ffi_tags : list string :=
  [ "void"; "bool"; "u8"; "i8"; "u16"; "i16"; "u32"; "i32"; "u64"; "i64";
    "usize"; "isize"; "f32"; "f64"; "pointer"; "buffer"; "function" ].

(** A JavaScript object with string keys, in property order. *)
Definition JsObject (V : Type) : Type := list (string * V).

Fixpoint obj_get {V} (o : JsObject V) (k : string) : option V :=
  match o with
  | [] => None
  | (k', v) :: o' => if String.eqb k' k then Some v else obj_get o' k
  end.

(** [o[k] = v]: an existing property keeps its place, a new one goes last. *)
Fixpoint obj_set {V} (o : JsObject V) (k : string) (v : V) : JsObject V :=
  match o with
  | [] => [(k, v)]
  | (k', v') :: o' =>
      if String.eqb k' k then (k', v) :: o' else (k', v') :: obj_set o' k v
  end.

Definition obj_keys {V} (o : JsObject V) : list string := map fst o.

(** One entry of the [symbols] argument of [dlopen].  [sym_type] is the
    value under the key [type] when the entry has that key. *)
Record SymbolSpec := mkSymbol {
  sym_type : option string;
  parameters : list string;
  result : string
}.

(** One entry of the binding table handed to [bun:ffi]. *)
Record BunSymbol := mkBunSymbol {
  args : list FFIType.t;
  returns : FFIType.t
}.

(** The body of the [for (const name in symbols)] loop for one entry. *)
Definition dlopen_entry (bunSymbols : JsObject BunSymbol)
    (name : string) (symbol : SymbolSpec) : Completion (JsObject BunSymbol) :=
  match sym_type symbol with
  | Some _ => Throw (Error "Symbol type notation not supported")
  | None =>
      a ← mapC transformFFIType (parameters symbol);
      r ← transformFFIType (result symbol);
      Normal (obj_set bunSymbols name (mkBunSymbol a r))
  end.

Fixpoint dlopen_loop (bunSymbols : JsObject BunSymbol)
    (symbols : JsObject SymbolSpec) : Completion (JsObject BunSymbol) :=
  match symbols with
  | [] => Normal bunSymbols
  | (name, symbol) :: rest =>
      b ← dlopen_entry bunSymbols name symbol;
      dlopen_loop b rest
  end.

(** [dlopen]; [bun_dlopen] is [bun:ffi]'s own [dlopen] and [Library] the type
    of the handle it returns. *)
Definition dlopen {Library : Type}
    (bun_dlopen : string -> JsObject BunSymbol -> Completion Library)
    (path : string) (symbols : JsObject SymbolSpec) : Completion Library :=
  bunSymbols ← dlopen_loop [] symbols;
  bun_dlopen path bunSymbols.

(** ** The process command adapter of [deno-compat-node.ts] *)

(** *** Falsy values and the [||] operator *)

(** [x || d] on a string that may be [undefined]: the empty string is falsy. *)
Definition str_or (x : option string) (d : string) : string :=
  match x with
  | Some s => if String.eqb s "" then d else s
  | None => d
  end.

(** [x === s] for a string literal [s]. *)
Definition str_is (x : option string) (s : string) : bool :=
  match x with
  | Some s' => String.eqb s' s
  | None => false
  end.

(** *** The host *)

(** The options object handed to [child_process.spawn]. *)
Record SpawnOptions := mkSpawnOptions {
  stdio : list string;
  cwd : option string;
  env : option (gmap string string)
}.

(** What the host reports about a child over time, in the order of delivery. *)
Inductive ChildEvent :=
| ev_exit (code : option Z) (signal : option string)
| ev_error (err : JsError)
| ev_stdout_data (chunk : list Byte.byte)
| ev_stdout_end
| ev_stdout_error (err : JsError)
| ev_stderr_data (chunk : list Byte.byte)
| ev_stderr_end.

(** A [ChildProcess]: which of its three streams exist ([false] is [null]),
    and the events the host will deliver for it. *)
Record ChildProcess := mkChild {
  child_stdin : bool;
  child_stdout : bool;
  child_stderr : bool;
  child_events : list ChildEvent
}.

(** The host primitives the adapter calls. *)
Record Host := mkHost {
  process_env : gmap string string;
  nodeSpawn : string -> list string -> SpawnOptions -> Completion ChildProcess
}.

(** *** Commands *)

(** The [options] argument of [new Command(command, options)]; [None] is an
    absent ([undefined]) property. *)
Record CommandOptions := mkOptions {
  o_args : option (list string);
  o_cwd : option string;
  o_env : option (gmap string string);
  o_stdin : option string;
  o_stdout : option string;
  o_stderr : option string
}.

Definition no_options : CommandOptions :=
  mkOptions None None None None None None.

Record Command := mkCommand {
  cmd : string;
  options : CommandOptions
}.

(** The constructor: [this.options = options || {}]. *)
Definition new_Command (command : string) (opts : option CommandOptions) : Command :=
  mkCommand command (default no_options opts).

(** The three entries of [spawnOptions.stdio]. *)
Definition stdin_slot (o : CommandOptions) : string :=
  if str_is (o_stdin o) "piped" then "pipe"
  else str_or (o_stdin o) "inherit".

Definition stdout_slot (o : CommandOptions) : string :=
  if str_is (o_stdout o) "piped" then "pipe"
  else if str_is (o_stdout o) "null" then "ignore"
  else str_or (o_stdout o) "inherit".

Definition stderr_slot (o : CommandOptions) : string :=
  if str_is (o_stderr o) "piped" then "pipe"
  else if str_is (o_stderr o) "null" then "ignore"
  else str_or (o_stderr o) "inherit".

(** [{ ...process.env, ...this.options.env }]: later properties win. *)
Definition spread_env (inherited overrides : gmap string string)
    : gmap string string :=
  overrides ∪ inherited.

(** [spawnOptions] as [spawn] builds it. *)
Definition spawnOptions (h : Host) (o : CommandOptions) : SpawnOptions :=
  {| stdio := [stdin_slot o; stdout_slot o; stderr_slot o];
     cwd := match o_cwd o with
            | Some d => if String.eqb d "" then None else Some d
            | None => None
            end;
     env := match o_env o with
            | Some overrides => Some (spread_env (process_env h) overrides)
            | None => None
            end |}.

(** *** Promises *)

Inductive Promise (A : Type) : Type :=
| Pending
| Fulfilled (a : A)
| Rejected (e : JsError).
Arguments Pending {A}.
Arguments Fulfilled {A} a.
Arguments Rejected {A} e.

(** [resolve(v)]: a promise that is already settled stays as it is. *)
Definition resolve {A} (p : Promise A) (v : A) : Promise A :=
  match p with
  | Pending => Fulfilled v
  | _ => p
  end.

(** [Promise.all([p, q])]. *)
Definition Promise_all {A B} (p : Promise A) (q : Promise B) : Promise (A * B) :=
  match p, q with
  | Rejected e, _ => Rejected e
  | _, Rejected e => Rejected e
  | Fulfilled a, Fulfilled b => Fulfilled (a, b)
  | _, _ => Pending
  end.

(** *** The spawned process *)

Record CommandStatus := mkStatus {
  success : bool;
  code : Z;
  signal : option string
}.

(** The ["exit"] listener: [{ success: code === 0, code: code || 0,
    signal: signal || null }]. *)
Definition exit_status (code : option Z) (signal : option string) : CommandStatus :=
  {| success := match code with Some 0%Z => true | _ => false end;
     code := match code with Some c => c | None => 0%Z end;
     signal := match signal with
               | Some s => if String.eqb s "" then None else Some s
               | None => None
               end |}.

(** The status promise after one more host event. *)
Definition status_step (p : Promise CommandStatus) (ev : ChildEvent)
    : Promise CommandStatus :=
  match ev with
  | ev_exit code signal => resolve p (exit_status code signal)
  | _ => p
  end.

(** The state of one call of the [output] closure: the chunks pushed so far
    and the promise the call returned. *)
Record Accumulator := mkAcc {
  chunks : list (list Byte.byte);
  collected : Promise (list Byte.byte)
}.

(** [Buffer.concat(chunks)]. *)
Definition Buffer_concat (chunks : list (list Byte.byte)) : list Byte.byte :=
  concat chunks.

(** The call itself: without a stdout stream the loop is skipped. *)
Definition output_start (child : ChildProcess) : Accumulator :=
  if child_stdout child
  then mkAcc [] Pending
  else mkAcc [] (Fulfilled (Buffer_concat [])).

(** One round of [for await (const chunk of child.stdout)]. *)
Definition output_step (a : Accumulator) (ev : ChildEvent) : Accumulator :=
  match collected a with
  | Pending =>
      match ev with
      | ev_stdout_data chunk => mkAcc (chunks a ++ [chunk]) Pending
      | ev_stdout_end => mkAcc (chunks a) (Fulfilled (Buffer_concat (chunks a)))
      | ev_stdout_error err => mkAcc (chunks a) (Rejected err)
      | _ => a
      end
  | _ => a
  end.

(** The [status] promise of a child once the host has delivered [n] events:
    the ["exit"] listener is its only way to settle. *)
Definition status_promise (child : ChildProcess) (n : nat)
    : Promise CommandStatus :=
  fold_left status_step (take n (child_events child)) Pending.

(** The promise a call of the [output] closure returned, the call being made
    right after [spawn], once the host has delivered [n] events. *)
Definition output_promise (child : ChildProcess) (n : nat)
    : Promise (list Byte.byte) :=
  collected (fold_left output_step (take n (child_events child))
                       (output_start child)).

(** The writer-producing wrapper around [child.stdin]. *)
Inductive StdinWrapper := stdinWrapper.

(** What [spawn] returns.  [stdout] and [stderr] tell whether the handle is a
    stream or null; [status] and [output] give the state of the promise
    after a number of host events. *)
Record SpawnedProcess := mkSpawned {
  stdin : option StdinWrapper;
  stdout : bool;
  stderr : bool;
  status : nat -> Promise CommandStatus;
  output : nat -> Promise (list Byte.byte)
}.

Definition spawn (h : Host) (c : Command) : Completion SpawnedProcess :=
  let args := default [] (o_args (options c)) in
  child ← nodeSpawn h (cmd c) args (spawnOptions h (options c));
  Normal {| stdin := if child_stdin child then Some stdinWrapper else None;
            stdout := child_stdout child;
            stderr := child_stderr child;
            status := status_promise child;
            output := output_promise child |}.

Record CommandOutput := mkOutput {
  out_success : bool;
  out_code : Z;
  out_signal : option string;
  out_stdout : list Byte.byte;
  out_stderr : list Byte.byte
}.

(** [Command.output()]: the promise the async method returned, once the host
    has delivered [n] events. *)
Definition Command_output_at (h : Host) (c : Command) (n : nat)
    : Promise CommandOutput :=
  match spawn h c with
  | Throw e => Rejected e
  | Normal process =>
      match Promise_all (status process n) (output process n) with
      | Fulfilled (st, bytes) =>
          Fulfilled {| out_success := success st;
                       out_code := code st;
                       out_signal := signal st;
                       out_stdout := bytes;
                       out_stderr := [] |}
      | Rejected e => Rejected e
      | Pending => Pending
      end
  end.

(** ** Runtime detection ([runtime.ts]) and installation *)

(** What can be bound under the global name [Deno]. *)
Inductive DenoValue :=
| DenoCompat
| BunDenoCompat
| NativeDeno
| OtherValue (tag : string).

(** The part of the global scope the modules look at.  [Deno = None] is
    [typeof Deno === "undefined"]; [navigator = None] is a host without a
    [navigator] global, otherwise it holds [navigator.userAgent]. *)
Record Globals := mkGlobals {
  Deno : option DenoValue;
  navigator : option string
}.

Definition set_Deno (g : Globals) (v : DenoValue) : Globals :=
  mkGlobals (Some v) (navigator g).

Definition ascii_lower (c : ascii) : ascii :=
  let n := nat_of_ascii c in
  if (65 <=? n)%nat && (n <=? 90)%nat then ascii_of_nat (n + 32) else c.

Fixpoint toLowerCase (s : string) : string :=
  match s with
  | EmptyString => EmptyString
  | String c s' => String (ascii_lower c) (toLowerCase s')
  end.

(** [s.includes(pat)]. *)
Fixpoint includes (pat s : string) : bool :=
  String.prefix pat s ||
  match s with
  | EmptyString => false
  | String _ s' => includes pat s'
  end.

(** [/pat/i.test(s)] for a lower-case literal [pat]. *)
Definition test_i (pat s : string) : bool := includes pat (toLowerCase s).

Inductive Runtime := deno | node | bun.

Definition runtime (g : Globals) : Runtime :=
  match navigator g with
  | Some userAgent =>
      if String.eqb userAgent "" then node
      else if test_i "deno" userAgent then deno
      else if test_i "bun" userAgent then bun
      else node
  | None => node
  end.

Definition isNode (g : Globals) : bool :=
  match runtime g with node => true | _ => false end.
Definition isBun (g : Globals) : bool :=
  match runtime g with bun => true | _ => false end.

(** Evaluating a module: the global scope afterwards, and how it completed. *)
Definition ModuleEval : Type := Globals * Completion unit.

(** [deno-compat-node.ts]: [if (typeof Deno === "undefined") globalThis.Deno = DenoCompat]. *)
Definition load_deno_compat_node (g : Globals) : ModuleEval :=
  match Deno g with
  | None => (set_Deno g DenoCompat, Normal tt)
  | Some _ => (g, Normal tt)
  end.

(** [deno-compat-bun.ts]: its import of the Node module is evaluated first. *)
Definition load_deno_compat_bun (g : Globals) : ModuleEval :=
  match load_deno_compat_node g with
  | (g1, Throw e) => (g1, Throw e)
  | (g1, Normal _) =>
      match navigator g1 with
      | None => (g1, Throw (mkError "ReferenceError" "navigator is not defined"))
      | Some userAgent =>
          if String.prefix "Bun" userAgent
          then (set_Deno g1 BunDenoCompat, Normal tt)
          else (g1, Normal tt)
      end
  end.

(** [mod.ts]. *)
Definition load_mod (g : Globals) : ModuleEval :=
  if isNode g then load_deno_compat_node g
  else if isBun g then load_deno_compat_bun g
  else (g, Normal tt).

(** ** Pointer helpers of [deno-compat-bun.ts] *)

(** A JavaScript number is a binary64 float. *)
Abbreviation JsNumber := spec_float.

(** The argument of [create]: [bigint | number]. *)
Inductive Address :=
| BigInt (z : Z)
| Num (x : JsNumber).

(** [Number(value)]: a bigint is rounded to the nearest binary64, ties to
    even; a number is returned as it is. *)
Definition Number (value : Address) : JsNumber :=
  match value with
  | BigInt z => binary_normalize 53 1024 z 0 false
  | Num x => x
  end.

Module UnsafePointer.
(** [a === b] on numbers. *)
Definition equals (a b : JsNumber) : bool := SFeqb a b.
Definition create (value : Address) : JsNumber := Number value.
Definition value (pointer : JsNumber) : JsNumber := pointer.
End UnsafePointer.

(** ** Two sample hosts *)

Definition valid_stdio (s : string) : bool :=
  existsb (String.eqb s) ["pipe"; "overlapped"; "ignore"; "inherit"].

Definition ENOENT (file : string) : JsError :=
  mkError "Error" ("spawn " +:+ file +:+ " ENOENT").

Definition newline : string := String (ascii_of_nat 10) EmptyString.

(** A host that knows two programs: [echo], and [sleep], which ends up
    killed.  Like Node it refuses an unknown stdio keyword at once and
    creates a stream only for a ["pipe"] slot.  With [sync_failure = false]
    a missing program is reported as Node reports it, by an ["error"] event
    on the child; with [true] the launch failure is thrown by the call. *)
Definition sample_spawn (sync_failure : bool) (file : string)
    (args : list string) (o : SpawnOptions) : Completion ChildProcess :=
  if negb (forallb valid_stdio (stdio o))
  then Throw (mkError "TypeError" "The argument 'stdio' is invalid")
  else
    let piped i := str_is (stdio o !! i) "pipe" in
    if String.eqb file "echo" then
      let text := list_byte_of_string (String.concat " " args +:+ newline) in
      Normal (mkChild (piped 0%nat) (piped 1%nat) (piped 2%nat)
                (if piped 1%nat
                 then [ev_exit (Some 0%Z) None; ev_stdout_data text; ev_stdout_end]
                 else [ev_exit (Some 0%Z) None]))
    else if String.eqb file "sleep" then
      Normal (mkChild (piped 0%nat) (piped 1%nat) (piped 2%nat)
                (if piped 1%nat
                 then [ev_stdout_end; ev_exit None (Some "SIGTERM")]
                 else [ev_exit None (Some "SIGTERM")]))
    else if sync_failure then Throw (ENOENT file)
    else Normal (mkChild (piped 0%nat) (piped 1%nat) (piped 2%nat)
                   [ev_error (ENOENT file)]).

Definition sample_env : gmap string string :=
  {[ "PATH" := "/usr/bin"; "HOME" := "/root"; "LANG" := "C" ]}.

Definition node_host : Host := mkHost sample_env (sample_spawn false).
Definition strict_host : Host := mkHost sample_env (sample_spawn true).

Definition sample_bun_dlopen (path : string) (t : JsObject BunSymbol)
    : Completion (string * JsObject BunSymbol) :=
  Normal (path, t).


(** ** Notions used in the statements *)

(** An error whose message says ["not supported"]. *)
Definition not_supported (e : JsError) : bool :=
  includes "not supported" (err_message e).

(** All the tags one entry of the symbols map mentions. *)
Definition entry_tags (s : SymbolSpec) : list string :=
  parameters s ++ [result s].

(** [b] is the entry [s] with every tag replaced by its handle. *)
Definition translates (s : SymbolSpec) (b : BunSymbol) : Prop :=
  Forall2 (fun tag h => transformFFIType tag = Normal h) (parameters s) (args b) ∧
  transformFFIType (result s) = Normal (returns b).

(** What Node documents about an ["exit"] report: the child either exited
    with a code and no signal, or was ended by a named signal and has no
    code. *)
Definition host_exit_report (exit_code : option Z) (exit_signal : option string)
    : Prop :=
  (∃ c, exit_code = Some c ∧ exit_signal = None) ∨
  (∃ s, exit_code = None ∧ exit_signal = Some s ∧ s ≠ "").

Definition host_exit_event (ev : ChildEvent) : Prop :=
  match ev with
  | ev_exit exit_code exit_signal => host_exit_report exit_code exit_signal
  | _ => True
  end.

(** The first ["exit"] report among some events. *)
Fixpoint first_exit (evs : list ChildEvent) : option (option Z * option string) :=
  match evs with
  | [] => None
  | ev_exit exit_code exit_signal :: _ => Some (exit_code, exit_signal)
  | _ :: evs' => first_exit evs'
  end.

(** Draining a stdout stream by hand: the bytes of the data chunks in the
    order of arrival, up to the end of the stream. *)
Fixpoint drain (acc : list Byte.byte) (evs : list ChildEvent)
    : Promise (list Byte.byte) :=
  match evs with
  | [] => Pending
  | ev_stdout_data chunk :: evs' => drain (acc ++ chunk) evs'
  | ev_stdout_end :: _ => Fulfilled acc
  | ev_stdout_error err :: _ => Rejected err
  | _ :: evs' => drain acc evs'
  end.

(** The child the host creates for a command, or the error its spawn call
    throws. *)
Definition launch (h : Host) (c : Command) : Completion ChildProcess :=
  nodeSpawn h (cmd c) (default [] (o_args (options c)))
            (spawnOptions h (options c)).

(** The reference stdio modes other than ["piped"]. *)
Definition unpiped_mode (m : option string) : Prop :=
  m = None ∨ m = Some "null" ∨ m = Some "inherit".

(** A host that, like Node, gives the child no stdout stream when the stdout
    slot is ["inherit"] or ["ignore"]. *)
Definition stdout_stream_on_request (h : Host) : Prop :=
  ∀ file args o child,
    nodeSpawn h file args o = Normal child →
    stdio o !! 1%nat = Some "inherit" ∨ stdio o !! 1%nat = Some "ignore" →
    child_stdout child = false.

(** ** Notions used in the further statements *)

(** The chunks of the stdout data events among some events, in order. *)
Definition stdout_data (evs : list ChildEvent) : list (list Byte.byte) :=
  omap (fun ev => match ev with
                  | ev_stdout_data chunk => Some chunk
                  | _ => None
                  end) evs.

(** An event that neither ends nor fails the stdout stream. *)
Definition stdout_open (ev : ChildEvent) : Prop :=
  match ev with
  | ev_stdout_end | ev_stdout_error _ => False
  | _ => True
  end.

(** An ["exit"] report. *)
Definition is_exit (ev : ChildEvent) : Prop :=
  match ev with
  | ev_exit _ _ => True
  | _ => False
  end.

(** A host whose spawn call returns a given child, whatever the command. *)
Definition host_of (child : ChildProcess) : Host :=
  mkHost ∅ (fun _ _ _ => Normal child).

(** A child that writes twice to its piped stdout and exits in between. *)
Definition chatty_child : ChildProcess :=
  mkChild false true false
    [ev_stdout_data [Byte.x68]; ev_exit (Some 0%Z) None;
     ev_stdout_data [Byte.x69; Byte.x0a]; ev_stdout_end].

(** A child whose piped stdout fails after the exit and one chunk. *)
Definition failing_child : ChildProcess :=
  mkChild false true false
    [ev_exit (Some 0%Z) None; ev_stdout_data [Byte.x68];
     ev_stdout_error (Error "read EIO"); ev_stdout_end].

(** ** [Deno.env] in the revision with [set], [delete], [has] and [toObject]

    [process.env] belongs to the host: the operations take the host and
    give the host afterwards. *)






(** ** [Deno.build.os] *)


(** ** The later revision of [runtime.ts]

    It lowers the user agent before the two tests. *)
Definition runtime_lowered (g : Globals) : Runtime :=
  match navigator g with
  | Some userAgent =>
      if String.eqb userAgent "" then node
      else if test_i "deno" (toLowerCase userAgent) then deno
      else if test_i "bun" (toLowerCase userAgent) then bun
      else node
  | None => node
  end.

(** ** [Deno.stdin.read] *)

(** [target.set(source, offset)] on a [Uint8Array]. *)
Definition Uint8Array_set (target source : list Byte.byte) (offset : nat)
    : Completion (list Byte.byte) :=
  if (offset + length source <=? length target)%nat
  then Normal (take offset target ++ source ++
               drop (offset + length source) target)
  else Throw (mkError "RangeError" "offset is out of bounds").

(** What [process.stdin] emits first after [resume()]. *)
Inductive StdinEvent :=
| stdin_data (chunk : list Byte.byte)
| stdin_end.

(** The two listeners of [read]; both are removed when either has run, so
    the first event decides.  The result is the buffer afterwards and the
    value the promise is resolved with ([None] is [null]). *)
Definition stdin_read (buffer : list Byte.byte) (ev : StdinEvent)
    : Completion (list Byte.byte * option nat) :=
  match ev with
  | stdin_data chunk =>
      let bytesRead := 0%nat in
      let bytesToCopy := Nat.min (length chunk) (length buffer - bytesRead) in
      buffer' ← Uint8Array_set buffer (take bytesToCopy chunk) bytesRead;
      let bytesRead := (bytesRead + bytesToCopy)%nat in
      Normal (buffer', Some bytesRead)
  | stdin_end => Normal (buffer, None)
  end.

(** ** [Deno.FsFile] *)

(** An operation on the host's file handle: the handle afterwards and the
    completion of the awaited call. *)
Definition HostM (S A : Type) : Type := S -> S * Completion A.

#[global] Instance HostM_ret {S} : MRet (HostM S) :=
  fun A a s => (s, Normal a).
#[global] Instance HostM_bind {S} : MBind (HostM S) := fun A B k c s =>
  match c s with
  | (s', Normal a) => k a s'
  | (s', Throw e) => (s', Throw e)
  end.

Definition host_throw {S A} (e : JsError) : HostM S A :=
  fun s => (s, Throw e).

(** The methods of the file handle that [FsFile] calls.  [fh_read p] is
    [read(p, 0, p.length, null)]: the [bytesRead] of its result and the
    buffer afterwards; [fh_write p] gives [bytesWritten]; [fh_seek] gives
    the [offset] of its result and [fh_stat] the [size]. *)
Record FileHandle (S : Type) := mkFileHandle {
  fh_read : list Byte.byte -> HostM S (nat * list Byte.byte);
  fh_write : list Byte.byte -> HostM S nat;
  fh_seek : Z -> Z -> HostM S Z;
  fh_stat : HostM S Z
}.
Arguments fh_read {S} _ _.
Arguments fh_write {S} _ _.
Arguments fh_seek {S} _ _ _.
Arguments fh_stat {S} _.

Definition FsFile_read {S} (fh : FileHandle S) (p : list Byte.byte)
    : HostM S (option nat * list Byte.byte) :=
  r ← fh_read fh p;
  let '(bytesRead, p') := r in
  mret (if (bytesRead =? 0)%nat then None else Some bytesRead, p').

Definition FsFile_write {S} (fh : FileHandle S) (p : list Byte.byte)
    : HostM S nat :=
  bytesWritten ← fh_write fh p;
  mret bytesWritten.

Definition FsFile_seek {S} (fh : FileHandle S) (offset whence : Z)
    : HostM S Z :=
  if (whence =? 0)%Z then
    _ ← fh_seek fh offset 0%Z;
    mret offset
  else if (whence =? 1)%Z then
    cur ← fh_seek fh 0%Z 1%Z;
    let pos := (cur + offset)%Z in
    _ ← fh_seek fh pos 0%Z;
    mret pos
  else if (whence =? 2)%Z then
    size ← fh_stat fh;
    let pos := (size + offset)%Z in
    _ ← fh_seek fh pos 0%Z;
    mret pos
  else host_throw (Error "Invalid whence").


(** A sample file handle: its state is the position and the size. *)
Definition sample_seek (offset whence : Z) : HostM (nat * nat) Z := fun s =>
  let target := (if (whence =? 0)%Z then offset
                 else if (whence =? 1)%Z then Z.of_nat s.1 + offset
                 else Z.of_nat s.2 + offset)%Z in
  if (target <? 0)%Z then (s, Throw (Error "EINVAL: invalid argument, seek"))
  else ((Z.to_nat target, s.2), Normal target).

Definition sample_file : FileHandle (nat * nat) :=
  mkFileHandle (nat * nat)
    (fun p s => let k := Nat.min (length p) (s.2 - s.1) in
                ((s.1 + k, s.2)%nat, Normal (k, p)))
    (fun p s => ((s.1 + length p, Nat.max s.2 (s.1 + length p))%nat,
                 Normal (length p)))
    sample_seek
    (fun s => (s, Normal (Z.of_nat s.2))).

(** ** [Deno.UnsafeCallback] *)

(** The object the constructor builds: the host's callback and its pointer. *)
Record UnsafeCallback (CB Ptr : Type) := mkCallback {
  inner : CB;
  pointer : Ptr
}.
Arguments mkCallback {CB Ptr} _ _.
Arguments inner {CB Ptr} _.
Arguments pointer {CB Ptr} _.

(** [new UnsafeCallback(def, fn)]; [new_JSCallback] is the constructor of
    [bun:ffi]'s [JSCallback] and [cb_ptr] its [ptr] property. *)
Definition new_UnsafeCallback {CB Ptr Fn : Type}
    (new_JSCallback : Fn -> BunSymbol -> Completion CB) (cb_ptr : CB -> Ptr)
    (def : SymbolSpec) (fn : Fn) : Completion (UnsafeCallback CB Ptr) :=
  a ← mapC transformFFIType (parameters def);
  r ← transformFFIType (result def);
  cb ← new_JSCallback fn (mkBunSymbol a r);
  Normal (mkCallback cb (cb_ptr cb)).

(** Two tags that name the same host type. *)
Definition ffi_alias (t1 t2 : string) : Prop :=
  (t1, t2) ∈ [ ("u64", "usize"); ("usize", "u64");
               ("i64", "isize"); ("isize", "i64");
               ("pointer", "buffer"); ("buffer", "pointer") ].
(** * Properties *)

(** ** The FFI type adapter *)

Lemma transformFFIType_throw_inv tag e :
  transformFFIType tag = Throw e →
  (tag ∉ ffi_tags) ∧ e = Error ("FFI type not supported: " +:+ tag).
Proof.
  unfold transformFFIType.
  repeat match goal with
  | |- context [String.eqb tag ?s] =>
      destruct (String.eqb_spec tag s) as [->|?]; [discriminate|]
  end.
  intros [= <-]. split; [|reflexivity].
  rewrite list_elem_of_In. simpl. intuition congruence.
Qed.

Lemma transformFFIType_normal_inv tag h :
  transformFFIType tag = Normal h → tag ∈ ffi_tags.
Proof.
  unfold transformFFIType.
  repeat match goal with
  | |- context [String.eqb tag ?s] =>
      destruct (String.eqb_spec tag s) as [->|?];
      [intros _; apply list_elem_of_In; simpl;
       repeat (first [left; reflexivity | right])|]
  end.
  discriminate.
Qed.

Lemma transformFFIType_known tag :
  tag ∈ ffi_tags → ∃ h, transformFFIType tag = Normal h.
Proof.
  intros Hin. destruct (transformFFIType tag) as [h|e] eqn:E; [eauto|].
  apply transformFFIType_throw_inv in E. tauto.
Qed.

(** C6: [transformFFIType] returns a handle for each of the seventeen tags
    of the enumeration and, for every other tag, throws an [Error] whose
    message is ["FFI type not supported: "] followed by that tag. *)
Theorem transformFFIType_total (tag : string) :
  (tag ∈ ffi_tags → ∃ h, transformFFIType tag = Normal h) ∧
  (tag ∉ ffi_tags →
   transformFFIType tag = Throw (Error ("FFI type not supported: " +:+ tag))).
Proof.
  split; [apply transformFFIType_known|].
  intros Hout. destruct (transformFFIType tag) as [h|e] eqn:E.
  - apply transformFFIType_normal_inv in E. contradiction.
  - apply transformFFIType_throw_inv in E as [_ ->]. reflexivity.
Qed.

Lemma transformFFIType_total_witness :
  ("usize" ∈ ffi_tags ∧ ∃ h, transformFFIType "usize" = Normal h) ∧
  (("i128" ∉ ffi_tags) ∧
   transformFFIType "i128" = Throw (Error "FFI type not supported: i128")).
Proof.
  assert (Hin : "usize" ∈ ffi_tags).
  { apply list_elem_of_In. simpl. repeat (first [left; reflexivity | right]). }
  assert (Hout : "i128" ∉ ffi_tags).
  { rewrite list_elem_of_In. simpl. intuition discriminate. }
  split; (split; [assumption|]).
  - exact (proj1 (transformFFIType_total "usize") Hin).
  - exact (proj2 (transformFFIType_total "i128") Hout).
Defined.

(** The handle each tag is mapped to. *)
Example transformFFIType_table :
  map transformFFIType ffi_tags =
  map Normal
    [ FFIType.void; FFIType.bool; FFIType.u8; FFIType.i8; FFIType.u16;
      FFIType.i16; FFIType.u32; FFIType.i32; FFIType.u64; FFIType.i64;
      FFIType.u64; FFIType.i64; FFIType.f32; FFIType.f64; FFIType.ptr;
      FFIType.ptr; FFIType.function ].
Proof. reflexivity. Qed.

Lemma mapC_throw_inv tags e :
  mapC transformFFIType tags = Throw e →
  ∃ tag, tag ∈ tags ∧ (tag ∉ ffi_tags) ∧
         e = Error ("FFI type not supported: " +:+ tag).
Proof.
  induction tags as [|t ts IH]; simpl; [discriminate|].
  destruct (transformFFIType t) as [h|e'] eqn:Et; simpl.
  - destruct (mapC transformFFIType ts) as [hs|e'']; simpl; [discriminate|].
    intros [= <-]. destruct IH as (tag & Hin & Hout & ->); [reflexivity|].
    exists tag. split; [by right|done].
  - intros [= <-]. apply transformFFIType_throw_inv in Et as [Hout ->].
    exists t. split; [by left|done].
Qed.

Lemma mapC_normal_inv tags hs :
  mapC transformFFIType tags = Normal hs →
  Forall2 (fun tag h => transformFFIType tag = Normal h) tags hs.
Proof.
  revert hs. induction tags as [|t ts IH]; simpl; intros hs.
  - intros [= <-]. constructor.
  - destruct (transformFFIType t) as [h|e'] eqn:Et; simpl; [|discriminate].
    destruct (mapC transformFFIType ts) as [hs'|e'']; simpl; [|discriminate].
    intros [= <-]. constructor; auto.
Qed.

Lemma mapC_known tags :
  Forall (fun tag => tag ∈ ffi_tags) tags →
  ∃ hs, mapC transformFFIType tags = Normal hs.
Proof.
  induction 1 as [|t ts Ht _ [hs IH]]; simpl; [eauto|].
  destruct (transformFFIType_known t Ht) as [h ->]. simpl.
  rewrite IH. simpl. eauto.
Qed.

Lemma dlopen_entry_throw_inv acc name s e :
  dlopen_entry acc name s = Throw e →
  e = Error "Symbol type notation not supported" ∨
  ∃ tag, (tag ∉ ffi_tags) ∧ e = Error ("FFI type not supported: " +:+ tag).
Proof.
  unfold dlopen_entry. destruct (sym_type s); [intros [= <-]; by left|].
  destruct (mapC transformFFIType (parameters s)) as [a|e'] eqn:Ea; simpl.
  - destruct (transformFFIType (result s)) as [r|e''] eqn:Er; simpl;
      [discriminate|].
    intros [= <-]. apply transformFFIType_throw_inv in Er as [Hout ->]. eauto.
  - intros [= <-]. apply mapC_throw_inv in Ea as (tag & _ & Hout & ->). eauto.
Qed.

Lemma dlopen_entry_known acc name s :
  sym_type s = None →
  Forall (fun tag => tag ∈ ffi_tags) (entry_tags s) →
  ∃ b, translates s b ∧ dlopen_entry acc name s = Normal (obj_set acc name b).
Proof.
  unfold dlopen_entry, entry_tags. intros -> [Hp Hr]%Forall_app.
  rewrite Forall_singleton in Hr.
  destruct (mapC_known _ Hp) as [a Ea].
  destruct (transformFFIType_known _ Hr) as [r Er].
  rewrite Ea, Er. simpl. exists (mkBunSymbol a r). split; [|reflexivity].
  split; simpl; [by apply mapC_normal_inv|done].
Qed.

Lemma mapC_unknown tags :
  Exists (fun tag => tag ∉ ffi_tags) tags →
  ∃ e, mapC transformFFIType tags = Throw e.
Proof.
  intros Hex. destruct (mapC transformFFIType tags) as [hs|e] eqn:E; [|eauto].
  exfalso. apply mapC_normal_inv in E. apply Exists_exists in Hex as (tag & Hin & Hout).
  apply Hout. clear Hout. induction E as [|t h ts hs Ht _ IH]; [by apply elem_of_nil in Hin|].
  apply elem_of_cons in Hin as [->|Hin]; [by eapply transformFFIType_normal_inv|auto].
Qed.

Lemma dlopen_entry_unknown acc name s :
  sym_type s = None →
  Exists (fun tag => tag ∉ ffi_tags) (entry_tags s) →
  ∃ e, dlopen_entry acc name s = Throw e.
Proof.
  unfold dlopen_entry, entry_tags. intros -> [Hp|Hr]%Exists_app.
  - destruct (mapC_unknown _ Hp) as [e ->]. simpl. eauto.
  - destruct (mapC transformFFIType (parameters s)) as [a|e]; simpl; [|eauto].
    apply Exists_cons in Hr as [Hr|Hr]; [|by apply Exists_nil in Hr].
    destruct (transformFFIType (result s)) as [r|e] eqn:Er; simpl; [|eauto].
    apply transformFFIType_normal_inv in Er. contradiction.
Qed.

Lemma dlopen_loop_unknown symbols :
  Forall (fun ns => sym_type ns.2 = None) symbols →
  Exists (fun ns => Exists (fun tag => tag ∉ ffi_tags) (entry_tags ns.2)) symbols →
  ∀ acc, ∃ tag, (tag ∉ ffi_tags) ∧
    dlopen_loop acc symbols = Throw (Error ("FFI type not supported: " +:+ tag)).
Proof.
  induction symbols as [|[name s] rest IH]; intros Hty Hex acc.
  - inversion Hex.
  - apply Forall_cons in Hty as [Hs Hty]. simpl in Hs. simpl.
    destruct (dlopen_entry acc name s) as [b|e] eqn:Ee; simpl.
    + apply IH; [assumption|]. inversion Hex as [? ? Hbad|]; subst; [|assumption].
      destruct (dlopen_entry_unknown acc name s Hs Hbad) as [e He]. congruence.
    + apply dlopen_entry_throw_inv in Ee as Hinv.
      destruct Hinv as [->|(tag & Hout & ->)]; [|eauto].
      unfold dlopen_entry in Ee. rewrite Hs in Ee.
      destruct (mapC transformFFIType (parameters s)) as [a|e'] eqn:Ea; simpl in Ee.
      * destruct (transformFFIType (result s)) as [r|e''] eqn:Er; simpl in Ee;
          [discriminate|].
        apply transformFFIType_throw_inv in Er as [_ ->]. discriminate Ee.
      * apply mapC_throw_inv in Ea as (tag & _ & _ & ->). discriminate Ee.
Qed.

Lemma dlopen_loop_type_key symbols :
  Exists (fun ns => is_Some (sym_type ns.2)) symbols →
  ∀ acc, ∃ e, dlopen_loop acc symbols = Throw e ∧
    (e = Error "Symbol type notation not supported" ∨
     ∃ tag, (tag ∉ ffi_tags) ∧ e = Error ("FFI type not supported: " +:+ tag)).
Proof.
  induction symbols as [|[name s] rest IH]; intros Hex acc.
  - inversion Hex.
  - simpl. destruct (dlopen_entry acc name s) as [b|e] eqn:Ee; simpl.
    + apply IH. inversion Hex as [? ? Hs|]; subst; [|assumption].
      exfalso. unfold dlopen_entry in Ee. simpl in Hs.
      destruct (sym_type s); [discriminate|]. by destruct Hs.
    + exists e. split; [reflexivity|]. by eapply dlopen_entry_throw_inv.
Qed.

Lemma not_supported_errors e :
  e = Error "Symbol type notation not supported" ∨
  (∃ tag, (tag ∉ ffi_tags) ∧ e = Error ("FFI type not supported: " +:+ tag)) →
  not_supported e = true.
Proof. intros [->|(tag & _ & ->)]; reflexivity. Qed.

Lemma obj_set_fresh {V} (o : JsObject V) k v :
  k ∉ obj_keys o → obj_set o k v = o ++ [(k, v)].
Proof.
  induction o as [|[k' v'] o IH]; simpl; [done|].
  intros Hk. apply not_elem_of_cons in Hk as [Hne Hk].
  destruct (String.eqb_spec k' k); [congruence|]. by rewrite IH.
Qed.

Lemma dlopen_loop_known symbols :
  Forall (fun ns => sym_type ns.2 = None) symbols →
  NoDup (obj_keys symbols) →
  Forall (fun ns => Forall (fun tag => tag ∈ ffi_tags) (entry_tags ns.2)) symbols →
  ∀ acc, (∀ k, k ∈ obj_keys symbols → k ∉ obj_keys acc) →
  ∃ table,
    Forall2 (fun ns nb => ns.1 = nb.1 ∧ translates ns.2 nb.2) symbols table ∧
    dlopen_loop acc symbols = Normal (acc ++ table).
Proof.
  induction symbols as [|[name s] rest IH]; intros Hty Hnd Htags acc Hfresh.
  - exists []. split; [constructor|]. simpl. by rewrite app_nil_r.
  - apply Forall_cons in Hty as [Hs Hty]. apply Forall_cons in Htags as [Ht Htags].
    simpl in Hnd. apply NoDup_cons in Hnd as [Hname Hnd]. simpl in Hs, Ht.
    destruct (dlopen_entry_known acc name s Hs Ht) as (b & Hb & Eb).
    simpl. rewrite Eb. simpl.
    rewrite obj_set_fresh by (apply Hfresh; simpl; by left).
    destruct (IH Hty Hnd Htags (acc ++ [(name, b)])) as (table & Htab & El).
    { intros k Hk. unfold obj_keys. rewrite map_app. simpl.
      rewrite elem_of_app, list_elem_of_singleton. intros [Hin| ->].
      - revert Hin. apply Hfresh. simpl. by right.
      - contradiction. }
    exists ((name, b) :: table). split; [constructor; [done|assumption]|].
    rewrite El. by rewrite <- app_assoc.
Qed.

(** C7: when some entry of the symbols map has a [type] key, [dlopen] throws
    an error that says "not supported" and its outcome does not depend on the
    host's library-open call, which is never reached.  When no entry has one
    and every tag is in the enumeration, the table given to the host has, for
    each entry and under the same name, the handles of its parameter and
    result tags, and what the host's call returns is returned as it is.  When
    no entry has one and some tag is outside the enumeration, the error of
    [transformFFIType] for such a tag is thrown, again before the host's
    call. *)
Theorem dlopen_spec (path : string) (symbols : JsObject SymbolSpec) :
  (Exists (fun ns => is_Some (sym_type ns.2)) symbols →
   ∃ e, not_supported e = true ∧
        ∀ Library (bun_dlopen : string → JsObject BunSymbol → Completion Library),
          dlopen bun_dlopen path symbols = Throw e) ∧
  (Forall (fun ns => sym_type ns.2 = None) symbols →
   NoDup (obj_keys symbols) →
   Forall (fun ns => Forall (fun tag => tag ∈ ffi_tags) (entry_tags ns.2)) symbols →
   ∃ table,
     Forall2 (fun ns nb => ns.1 = nb.1 ∧ translates ns.2 nb.2) symbols table ∧
     ∀ Library (bun_dlopen : string → JsObject BunSymbol → Completion Library),
       dlopen bun_dlopen path symbols = bun_dlopen path table) ∧
  (Forall (fun ns => sym_type ns.2 = None) symbols →
   Exists (fun ns => Exists (fun tag => tag ∉ ffi_tags) (entry_tags ns.2)) symbols →
   ∃ tag, (tag ∉ ffi_tags) ∧
     ∀ Library (bun_dlopen : string → JsObject BunSymbol → Completion Library),
       dlopen bun_dlopen path symbols =
       Throw (Error ("FFI type not supported: " +:+ tag))).
Proof.
  split; [|split].
  - intros Hex. destruct (dlopen_loop_type_key symbols Hex []) as (e & El & He).
    exists e. split; [by apply not_supported_errors|].
    intros Library bun_dlopen. unfold dlopen. by rewrite El.
  - intros Hty Hnd Htags.
    destruct (dlopen_loop_known symbols Hty Hnd Htags []) as (table & Htab & El).
    { intros k _. apply not_elem_of_nil. }
    exists table. split; [assumption|].
    intros Library bun_dlopen. unfold dlopen. by rewrite El.
  - intros Hty Hbad.
    destruct (dlopen_loop_unknown symbols Hty Hbad []) as (tag & Hout & El).
    exists tag. split; [assumption|].
    intros Library bun_dlopen. unfold dlopen. by rewrite El.
Qed.

Lemma dlopen_spec_witness :
  (∃ e, not_supported e = true ∧
        ∀ Library (bun_dlopen : string → JsObject BunSymbol → Completion Library),
          dlopen bun_dlopen "libc.so"
            [("puts", mkSymbol None ["buffer"] "i32");
             ("legacy", mkSymbol (Some "i32") [] "void")] = Throw e) ∧
  (∃ table,
     Forall2 (fun ns nb => ns.1 = nb.1 ∧ translates ns.2 nb.2)
       [("add", mkSymbol None ["i32"; "i32"] "i32")] table ∧
     ∀ Library (bun_dlopen : string → JsObject BunSymbol → Completion Library),
       dlopen bun_dlopen "libadd.so"
         [("add", mkSymbol None ["i32"; "i32"] "i32")] = bun_dlopen "libadd.so" table).
Proof.
  split.
  - apply (proj1 (dlopen_spec "libc.so" _)).
    apply Exists_cons_tl, Exists_cons_hd. simpl. eauto.
  - apply (proj1 (proj2 (dlopen_spec "libadd.so" _))).
    + repeat constructor.
    + simpl. apply NoDup_singleton.
    + repeat constructor; simpl;
        apply list_elem_of_In; simpl; repeat (first [left; reflexivity | right]).
Defined.

Example dlopen_add :
  dlopen sample_bun_dlopen "libadd.so"
    [("add", mkSymbol None ["i32"; "i32"] "i32")] =
  Normal ("libadd.so",
          [("add", mkBunSymbol [FFIType.i32; FFIType.i32] FFIType.i32)]).
Proof. reflexivity. Qed.

Example dlopen_type_notation :
  dlopen sample_bun_dlopen "libc.so"
    [("puts", mkSymbol None ["buffer"] "i32");
     ("legacy", mkSymbol (Some "i32") [] "void")] =
  Throw (Error "Symbol type notation not supported").
Proof. reflexivity. Qed.

(** An unsupported tag in an earlier entry is reported first. *)
Example dlopen_unsupported_tag_first :
  dlopen sample_bun_dlopen "libc.so"
    [("wide", mkSymbol None ["i128"] "i32");
     ("legacy", mkSymbol (Some "i32") [] "void")] =
  Throw (Error "FFI type not supported: i128").
Proof. reflexivity. Qed.

(** ** The process command adapter: options *)

Lemma stdout_slot_modes (o : CommandOptions) :
  (o_stdout o = Some "piped" → stdout_slot o = "pipe") ∧
  (o_stdout o = Some "null" → stdout_slot o = "ignore") ∧
  (o_stdout o = Some "inherit" → stdout_slot o = "inherit") ∧
  (o_stdout o = None → stdout_slot o = "inherit").
Proof. unfold stdout_slot. repeat split; intros ->; reflexivity. Qed.

Lemma stderr_slot_modes (o : CommandOptions) :
  (o_stderr o = Some "piped" → stderr_slot o = "pipe") ∧
  (o_stderr o = Some "null" → stderr_slot o = "ignore") ∧
  (o_stderr o = Some "inherit" → stderr_slot o = "inherit") ∧
  (o_stderr o = None → stderr_slot o = "inherit").
Proof. unfold stderr_slot. repeat split; intros ->; reflexivity. Qed.

Lemma stdin_slot_modes (o : CommandOptions) :
  (o_stdin o = Some "piped" → stdin_slot o = "pipe") ∧
  (o_stdin o = Some "inherit" → stdin_slot o = "inherit") ∧
  (o_stdin o = None → stdin_slot o = "inherit").
Proof. unfold stdin_slot. repeat split; intros ->; reflexivity. Qed.

(** Whatever else [stdin] holds is handed to the host as it is. *)
Lemma stdin_slot_other (o : CommandOptions) (s : string) :
  o_stdin o = Some s → s ≠ "piped" → s ≠ "" → stdin_slot o = s.
Proof.
  unfold stdin_slot. intros -> Hp He. simpl.
  destruct (String.eqb_spec s "piped"); [done|].
  destruct (String.eqb_spec s ""); done.
Qed.

(** C4: the stdin slot misses the ["null"] case that the stdout and stderr
    slots have: with all three modes ["null"] the host is given the stdio
    array [["null"; "ignore"; "ignore"]], so stdin is not mapped to the
    host's discard configuration. *)
Theorem stdin_null_passed_through (h : Host) (o : CommandOptions) :
  o_stdin o = Some "null" → o_stdout o = Some "null" → o_stderr o = Some "null" →
  stdio (spawnOptions h o) = ["null"; "ignore"; "ignore"].
Proof.
  intros Hi Ho He. simpl. unfold stdin_slot, stdout_slot, stderr_slot.
  rewrite Hi, Ho, He. reflexivity.
Qed.

Lemma stdin_null_passed_through_witness :
  stdio (spawnOptions node_host
           (mkOptions None None None (Some "null") (Some "null") (Some "null")))
  = ["null"; "ignore"; "ignore"].
Proof.
  apply (stdin_null_passed_through node_host
           (mkOptions None None None (Some "null") (Some "null") (Some "null")));
    reflexivity.
Defined.

(** On a host that checks the stdio keywords as Node does, such a command
    cannot be spawned at all. *)
Example spawn_stdin_null_rejected :
  spawn node_host
    (new_Command "echo" (Some (mkOptions None None None (Some "null") None None)))
  = Throw (mkError "TypeError" "The argument 'stdio' is invalid").
Proof. reflexivity. Qed.

Lemma spread_env_lookup (inherited overrides : gmap string string) (k : string) :
  spread_env inherited overrides !! k =
  match overrides !! k with
  | Some v => Some v
  | None => inherited !! k
  end.
Proof.
  unfold spread_env. destruct (overrides !! k) as [v|] eqn:E.
  - by apply lookup_union_Some_l.
  - by apply lookup_union_r.
Qed.

(** C8: when the options carry environment overrides, the environment given
    to the host for the child holds every override, and every variable of
    [process.env] that no override names, with its inherited value. *)
Theorem spawn_env_merges (h : Host) (o : CommandOptions)
    (overrides : gmap string string) :
  o_env o = Some overrides →
  ∃ child_env,
    env (spawnOptions h o) = Some child_env ∧
    (∀ k v, overrides !! k = Some v → child_env !! k = Some v) ∧
    (∀ k, overrides !! k = None → child_env !! k = process_env h !! k).
Proof.
  intros Ho. exists (spread_env (process_env h) overrides). simpl. rewrite Ho.
  split; [reflexivity|]. split.
  - intros k v Hk. by rewrite spread_env_lookup, Hk.
  - intros k Hk. by rewrite spread_env_lookup, Hk.
Qed.

Lemma spawn_env_merges_witness :
  ∃ child_env,
    env (spawnOptions node_host
           (mkOptions None None (Some {[ "LANG" := "fr_FR.UTF-8" ]}) None None None))
    = Some child_env ∧
    (∀ k v, ({[ "LANG" := "fr_FR.UTF-8" ]} : gmap string string) !! k = Some v →
            child_env !! k = Some v) ∧
    (∀ k, ({[ "LANG" := "fr_FR.UTF-8" ]} : gmap string string) !! k = None →
          child_env !! k = process_env node_host !! k).
Proof.
  apply (spawn_env_merges node_host
           (mkOptions None None (Some {[ "LANG" := "fr_FR.UTF-8" ]}) None None None)).
  reflexivity.
Defined.

Example spawn_env_sample :
  env (spawnOptions node_host
         (mkOptions None None (Some {[ "LANG" := "fr_FR.UTF-8" ]}) None None None))
  = Some {[ "PATH" := "/usr/bin"; "HOME" := "/root"; "LANG" := "fr_FR.UTF-8" ]}.
Proof.
  vm_compute. reflexivity.
Qed.


(** ** The process command adapter: spawn *)

(** [spawn] wraps the child of the host's spawn call and nothing else. *)
Lemma spawn_launch (h : Host) (c : Command) :
  spawn h c =
  child ← launch h c;
  Normal (mkSpawned (if child_stdin child then Some stdinWrapper else None)
                    (child_stdout child) (child_stderr child)
                    (status_promise child) (output_promise child)).
Proof. reflexivity. Qed.

Lemma spawn_normal_inv (h : Host) (c : Command) (p : SpawnedProcess) :
  spawn h c = Normal p →
  ∃ child, launch h c = Normal child ∧
           stdout p = child_stdout child ∧
           stderr p = child_stderr child ∧
           status p = status_promise child ∧
           output p = output_promise child.
Proof.
  rewrite spawn_launch. destruct (launch h c) as [child|e]; simpl; [|discriminate].
  intros [= <-]. by exists child.
Qed.

(** ** The process command adapter: exit status *)

Lemma status_fold_settled (evs : list ChildEvent) (p : Promise CommandStatus) :
  p ≠ Pending → fold_left status_step evs p = p.
Proof.
  revert p. induction evs as [|ev evs IH]; intros p Hp; [reflexivity|].
  simpl. assert (status_step p ev = p) as ->; [|by apply IH].
  destruct ev; simpl; try reflexivity. by destruct p.
Qed.

Lemma status_fold_pending (evs : list ChildEvent) :
  fold_left status_step evs Pending =
  match first_exit evs with
  | Some (exit_code, exit_signal) => Fulfilled (exit_status exit_code exit_signal)
  | None => Pending
  end.
Proof.
  induction evs as [|ev evs IH]; [reflexivity|].
  destruct ev; simpl; try exact IH.
  by apply status_fold_settled.
Qed.

(** The status promise has no rejection path. *)
Lemma status_never_rejected (child : ChildProcess) (n : nat) (e : JsError) :
  status_promise child n ≠ Rejected e.
Proof.
  unfold status_promise. rewrite status_fold_pending.
  by destruct (first_exit _) as [[? ?]|].
Qed.

(** Until the host reports the exit, the status promise is pending. *)
Lemma status_pending_before_exit (child : ChildProcess) (n : nat) :
  first_exit (take n (child_events child)) = None →
  status_promise child n = Pending.
Proof. intros H. unfold status_promise. by rewrite status_fold_pending, H. Qed.

(** C5: once the host has reported the exit of the child (with a code and no
    signal, or with a signal and no code), the status promise is fulfilled;
    [success] holds exactly when the code is zero and there is no signal,
    [code] is the reported code, or 0 when there is none, and [signal] is
    the reported signal name, or null. *)
Theorem status_resolves_on_exit (h : Host) (c : Command) (p : SpawnedProcess)
    (child : ChildProcess) (n : nat)
    (exit_code : option Z) (exit_signal : option string) :
  spawn h c = Normal p →
  launch h c = Normal child →
  first_exit (take n (child_events child)) = Some (exit_code, exit_signal) →
  host_exit_report exit_code exit_signal →
  ∃ st, status p n = Fulfilled st ∧
        (success st = true ↔ exit_code = Some 0%Z ∧ exit_signal = None) ∧
        (success st = true ↔ code st = 0%Z ∧ signal st = None) ∧
        code st = default 0%Z exit_code ∧
        signal st = exit_signal.
Proof.
  intros (child' & Hl & _ & _ & Hst & _)%spawn_normal_inv Hchild Hfirst Hrep.
  rewrite Hchild in Hl. injection Hl as <-.
  exists (exit_status exit_code exit_signal).
  rewrite Hst. unfold status_promise. rewrite status_fold_pending, Hfirst.
  split; [reflexivity|].
  destruct Hrep as [(k & -> & ->)|(s & -> & -> & Hs)]; simpl.
  - destruct k; simpl; intuition congruence.
  - destruct (String.eqb_spec s ""); [done|]. intuition congruence.
Qed.

Lemma status_resolves_on_exit_witness :
  ∃ st, status_promise (mkChild false false false [ev_exit None (Some "SIGTERM")]) 1
        = Fulfilled st ∧
        (success st = true ↔ (None : option Z) = Some 0%Z ∧ Some "SIGTERM" = None) ∧
        (success st = true ↔ code st = 0%Z ∧ signal st = None) ∧
        code st = default 0%Z None ∧
        signal st = Some "SIGTERM".
Proof.
  apply (status_resolves_on_exit node_host (new_Command "sleep" None)
           (mkSpawned None false false
              (status_promise (mkChild false false false
                                 [ev_exit None (Some "SIGTERM")]))
              (output_promise (mkChild false false false
                                 [ev_exit None (Some "SIGTERM")])))
           (mkChild false false false [ev_exit None (Some "SIGTERM")])
           1 None (Some "SIGTERM")).
  - reflexivity.
  - reflexivity.
  - reflexivity.
  - right. exists "SIGTERM". repeat split. discriminate.
Defined.

Example exit_status_samples :
  exit_status (Some 0%Z) None = mkStatus true 0 None ∧
  exit_status (Some 3%Z) None = mkStatus false 3 None ∧
  exit_status None (Some "SIGTERM") = mkStatus false 0 (Some "SIGTERM").
Proof. repeat split. Qed.

(** ** The process command adapter: output *)

Lemma output_fold_settled (evs : list ChildEvent) (a : Accumulator) :
  collected a ≠ Pending → fold_left output_step evs a = a.
Proof.
  revert a. induction evs as [|ev evs IH]; intros a Ha; [reflexivity|].
  simpl. assert (output_step a ev = a) as ->; [|by apply IH].
  unfold output_step. by destruct (collected a).
Qed.

Lemma output_fold_drain (evs : list ChildEvent) (cs : list (list Byte.byte)) :
  collected (fold_left output_step evs (mkAcc cs Pending)) =
  drain (Buffer_concat cs) evs.
Proof.
  revert cs. induction evs as [|ev evs IH]; intros cs; [reflexivity|].
  destruct ev; simpl; try apply IH.
  - unfold output_step at 2. simpl. rewrite IH. unfold Buffer_concat.
    by rewrite concat_app; simpl; rewrite app_nil_r.
  - by rewrite output_fold_settled.
  - by rewrite output_fold_settled.
Qed.

(** With a stdout stream, [output()] yields the bytes of the chunks in the
    order the child wrote them, when the stream ends. *)
Lemma output_promise_drains (child : ChildProcess) (n : nat) :
  child_stdout child = true →
  output_promise child n = drain [] (take n (child_events child)).
Proof.
  intros Hs. unfold output_promise, output_start. rewrite Hs.
  apply output_fold_drain.
Qed.

Lemma output_promise_no_stream (child : ChildProcess) (n : nat) :
  child_stdout child = false → output_promise child n = Fulfilled [].
Proof.
  intros Hs. unfold output_promise, output_start. rewrite Hs.
  by rewrite output_fold_settled.
Qed.

(** C10: when the stdout mode is absent, ["null"] or ["inherit"], and the
    host creates a stdout stream only for a piped slot, the spawned process
    has no stdout handle and the promise of its [output()] is fulfilled with
    the empty byte sequence, whatever the host has reported so far. *)
Theorem output_without_stdout (h : Host) (c : Command) (p : SpawnedProcess) :
  stdout_stream_on_request h →
  unpiped_mode (o_stdout (options c)) →
  spawn h c = Normal p →
  stdout p = false ∧ ∀ n, output p n = Fulfilled [].
Proof.
  intros Hhost Hmode (child & Hl & Hout & _ & _ & Hop)%spawn_normal_inv.
  assert (child_stdout child = false) as Hnone.
  { eapply Hhost; [exact Hl|]. simpl. unfold stdout_slot.
    destruct Hmode as [-> | [-> | ->]]; simpl; auto. }
  split; [congruence|]. intros n. rewrite Hop.
  by apply output_promise_no_stream.
Qed.

Lemma sample_host_stdout_on_request (sync_failure : bool) :
  stdout_stream_on_request (mkHost sample_env (sample_spawn sync_failure)).
Proof.
  intros file args o child. simpl. unfold sample_spawn.
  destruct (negb _); [discriminate|].
  intros Hchild Hslot.
  assert (str_is (stdio o !! 1%nat) "pipe" = false) as Hno
    by (destruct Hslot as [-> | ->]; reflexivity).
  rewrite Hno in Hchild.
  destruct (String.eqb file "echo"); [|destruct (String.eqb file "sleep");
                                       [|destruct sync_failure]];
    try discriminate; by injection Hchild as <-.
Qed.

Lemma output_without_stdout_witness :
  ∃ p, spawn node_host
         (new_Command "echo"
            (Some (mkOptions (Some ["hello"]) None None None (Some "null") None)))
       = Normal p ∧
       stdout p = false ∧ ∀ n, output p n = Fulfilled [].
Proof.
  eexists. split; [reflexivity|].
  apply (output_without_stdout node_host
           (new_Command "echo"
              (Some (mkOptions (Some ["hello"]) None None None (Some "null") None)))).
  - apply sample_host_stdout_on_request.
  - right. left. reflexivity.
  - reflexivity.
Defined.

(** C3: the promise of [Command.output()] is fulfilled exactly when [spawn]
    returned a process and both its status promise and its [output()] promise
    are fulfilled; the value then carries [success], [code] and [signal] of
    the status, the bytes [output()] collected as [stdout], and an empty
    [stderr], whatever the options say about stderr. *)
Theorem Command_output_awaits_both (h : Host) (c : Command) (n : nat)
    (r : CommandOutput) :
  Command_output_at h c n = Fulfilled r ↔
  ∃ p st bytes,
    spawn h c = Normal p ∧
    status p n = Fulfilled st ∧
    output p n = Fulfilled bytes ∧
    r = mkOutput (success st) (code st) (signal st) bytes [].
Proof.
  unfold Command_output_at. split.
  - destruct (spawn h c) as [p|e] eqn:Hp; [|discriminate].
    destruct (status p n) as [|st|e1] eqn:Hst;
      destruct (output p n) as [|bytes|e2] eqn:Hout;
      simpl; try discriminate.
    intros [= <-]. by exists p, st, bytes.
  - intros (p & st & bytes & -> & -> & -> & ->). reflexivity.
Qed.

Lemma Command_output_awaits_both_witness :
  ∃ p st bytes,
    spawn node_host
      (new_Command "echo"
         (Some (mkOptions (Some ["hello"]) None None None (Some "piped") (Some "piped"))))
    = Normal p ∧
    status p 3 = Fulfilled st ∧
    output p 3 = Fulfilled bytes ∧
    mkOutput true 0 None (list_byte_of_string ("hello" +:+ newline)) [] =
    mkOutput (success st) (code st) (signal st) bytes [].
Proof.
  apply (proj1 (Command_output_awaits_both node_host
                  (new_Command "echo"
                     (Some (mkOptions (Some ["hello"]) None None None
                                      (Some "piped") (Some "piped"))))
                  3 _)).
  reflexivity.
Defined.

(** The sample child reports its exit before its stdout has ended: the
    combined result waits for the end of the stream. *)
Example Command_output_echo :
  let c := new_Command "echo"
             (Some (mkOptions (Some ["hello"]) None None None (Some "piped") None)) in
  Command_output_at node_host c 0 = Pending ∧
  Command_output_at node_host c 1 = Pending ∧
  Command_output_at node_host c 2 = Pending ∧
  Command_output_at node_host c 3 =
    Fulfilled (mkOutput true 0 None (list_byte_of_string ("hello" +:+ newline)) []).
Proof. repeat split. Qed.

(** A stream that has ended while the exit is still to be reported. *)
Example Command_output_waits_for_exit :
  let h := mkHost ∅ (fun _ _ _ =>
             Normal (mkChild false true false
                       [ev_stdout_data [Byte.x68; Byte.x69]; ev_stdout_end;
                        ev_exit (Some 1%Z) None])) in
  let c := new_Command "prog" None in
  Command_output_at h c 2 = Pending ∧
  Command_output_at h c 3 =
    Fulfilled (mkOutput false 1 None [Byte.x68; Byte.x69] []).
Proof. repeat split. Qed.

(** Bytes the child writes to a piped stderr are not collected. *)
Example Command_output_ignores_stderr :
  let h := mkHost ∅ (fun _ _ _ =>
             Normal (mkChild false true true
                       [ev_stderr_data [Byte.x21]; ev_stderr_end; ev_stdout_end;
                        ev_exit (Some 0%Z) None])) in
  let c := new_Command "prog"
             (Some (mkOptions None None None None (Some "piped") (Some "piped"))) in
  Command_output_at h c 4 = Fulfilled (mkOutput true 0 None [] []).
Proof. reflexivity. Qed.

(** Both promises do get fulfilled: once the exit has been reported and the
    stdout stream (if any) has ended without an error, the combined result
    is there, with the bytes of the stream in the order of arrival. *)
Lemma Command_output_fulfilled (h : Host) (c : Command) (child : ChildProcess)
    (n : nat) (exit_code : option Z) (exit_signal : option string)
    (bytes : list Byte.byte) :
  launch h c = Normal child →
  first_exit (take n (child_events child)) = Some (exit_code, exit_signal) →
  (if child_stdout child
   then drain [] (take n (child_events child)) = Fulfilled bytes
   else bytes = []) →
  Command_output_at h c n =
  Fulfilled (mkOutput (success (exit_status exit_code exit_signal))
                      (code (exit_status exit_code exit_signal))
                      (signal (exit_status exit_code exit_signal))
                      bytes []).
Proof.
  intros Hl Hexit Hout. unfold Command_output_at.
  rewrite spawn_launch, Hl. simpl.
  unfold status_promise. rewrite status_fold_pending, Hexit.
  destruct (child_stdout child) eqn:Hs.
  - by rewrite output_promise_drains, Hout.
  - subst bytes. by rewrite output_promise_no_stream.
Qed.

(** ** The process command adapter: launch failure *)

(** C1: [spawn] has no handler of its own for a launch failure.  When the
    host's spawn call throws, [spawn] throws the same error and no spawned
    process, hence no status promise, comes into being; when the host's call
    returns a child, [spawn] returns.  In no case is the status promise
    rejected. *)
Theorem spawn_launch_failure (h : Host) (c : Command) :
  (∀ e, launch h c = Throw e → spawn h c = Throw e) ∧
  (∀ child, launch h c = Normal child → ∃ p, spawn h c = Normal p) ∧
  (∀ p n e, spawn h c = Normal p → status p n ≠ Rejected e).
Proof.
  rewrite spawn_launch. repeat split.
  - intros e ->. reflexivity.
  - intros child ->. simpl. eauto.
  - intros p n e. destruct (launch h c) as [child|e']; simpl; [|discriminate].
    intros [= <-]. simpl. apply status_never_rejected.
Qed.

Lemma spawn_launch_failure_witness :
  spawn strict_host (new_Command "no-such-program" None)
  = Throw (ENOENT "no-such-program").
Proof.
  apply (proj1 (spawn_launch_failure strict_host
                  (new_Command "no-such-program" None))).
  reflexivity.
Defined.

(** On a host that reports a missing program the way Node does, by an
    ["error"] event on the child, [spawn] does not throw: it returns a
    process whose status promise stays pending. *)
Lemma spawn_missing_program_returns :
  launch node_host (new_Command "no-such-program" None)
    = Normal (mkChild false false false [ev_error (ENOENT "no-such-program")]) ∧
  (¬ ∃ e, spawn node_host (new_Command "no-such-program" None) = Throw e) ∧
  ∃ p, spawn node_host (new_Command "no-such-program" None) = Normal p ∧
       ∀ n, status p n = Pending.
Proof.
  split; [reflexivity|]. split.
  - intros [e He]. discriminate He.
  - eexists. split; [reflexivity|].
    intros n. simpl. by destruct n as [|[|n]].
Qed.

(** ** Installation under the global name *)

Lemma load_node_Deno (g : Globals) :
  Deno (load_deno_compat_node g).1 = Some (default DenoCompat (Deno g)).
Proof.
  unfold load_deno_compat_node.
  destruct (Deno g) eqn:E; simpl; [by rewrite E|reflexivity].
Qed.

(** C2: the Node module binds [DenoCompat] under [Deno] when the name is
    unbound and otherwise leaves the global scope as it is.  The Bun module
    first evaluates the Node module and then, when the user agent starts
    with ["Bun"], binds [BunDenoCompat] under [Deno] whatever is bound
    there; with another user agent, or without [navigator], it changes
    nothing beyond what the Node module did.  [mod.ts] evaluates the Node
    module on Node, the Bun module on Bun and nothing on Deno. *)
Theorem install_paths (g : Globals) :
  (Deno g = None → Deno (load_deno_compat_node g).1 = Some DenoCompat) ∧
  (∀ v, Deno g = Some v → (load_deno_compat_node g).1 = g) ∧
  (∀ ua, navigator g = Some ua → String.prefix "Bun" ua = true →
         Deno (load_deno_compat_bun g).1 = Some BunDenoCompat) ∧
  (∀ ua, navigator g = Some ua → String.prefix "Bun" ua = false →
         (load_deno_compat_bun g).1 = (load_deno_compat_node g).1) ∧
  (navigator g = None →
   (load_deno_compat_bun g).1 = (load_deno_compat_node g).1) ∧
  (runtime g = node → load_mod g = load_deno_compat_node g) ∧
  (runtime g = bun → load_mod g = load_deno_compat_bun g) ∧
  (runtime g = deno → (load_mod g).1 = g).
Proof.
  unfold load_mod, isNode, isBun, load_deno_compat_bun, load_deno_compat_node.
  repeat split.
  - by intros ->.
  - by intros v ->.
  - intros ua Hn Hp. destruct (Deno g); simpl; rewrite Hn, Hp; reflexivity.
  - intros ua Hn Hp. destruct (Deno g); simpl; rewrite Hn, Hp; reflexivity.
  - intros Hn. destruct (Deno g); simpl; rewrite Hn; reflexivity.
  - by intros ->.
  - by intros ->.
  - by intros ->.
Qed.

Lemma install_paths_witness :
  Deno (load_deno_compat_node (mkGlobals None (Some "Node.js/22"))).1
  = Some DenoCompat.
Proof.
  apply (proj1 (install_paths (mkGlobals None (Some "Node.js/22")))).
  reflexivity.
Defined.

(** On Bun a value already bound under [Deno] is replaced. *)
Lemma bun_install_overwrites :
  Deno (mkGlobals (Some (OtherValue "polyfill")) (Some "Bun/1.1.0"))
    = Some (OtherValue "polyfill") ∧
  Deno (load_deno_compat_bun
          (mkGlobals (Some (OtherValue "polyfill")) (Some "Bun/1.1.0"))).1
    = Some BunDenoCompat ∧
  Deno (load_mod
          (mkGlobals (Some (OtherValue "polyfill")) (Some "Bun/1.1.0"))).1
    = Some BunDenoCompat.
Proof. repeat split. Qed.

(** On Deno itself nothing is touched, by either module or by [mod.ts]. *)
Example install_on_deno :
  let g := mkGlobals (Some NativeDeno) (Some "Deno/2.0.0") in
  (load_deno_compat_node g).1 = g ∧
  (load_deno_compat_bun g).1 = g ∧
  (load_mod g).1 = g.
Proof. repeat split. Qed.

(** On Bun with [Deno] unbound the Node module's binding is replaced too. *)
Example install_on_bun :
  let g := mkGlobals None (Some "Bun/1.1.0") in
  Deno (load_deno_compat_node g).1 = Some DenoCompat ∧
  Deno (load_deno_compat_bun g).1 = Some BunDenoCompat ∧
  runtime g = bun.
Proof. repeat split. Qed.

Example runtime_samples :
  runtime (mkGlobals None None) = node ∧
  runtime (mkGlobals None (Some "Node.js/22")) = node ∧
  runtime (mkGlobals None (Some "Deno/2.0.0")) = deno ∧
  runtime (mkGlobals None (Some "Bun/1.1.0")) = bun.
Proof. repeat split. Qed.

(** ** Pointer helpers *)

Section Binary64.
Local Open Scope Z_scope.

Lemma SFeqb_refl (x : spec_float) : x ≠ S754_nan → SFeqb x x = true.
Proof.
  unfold SFeqb. destruct x as [s|s| |s m e]; simpl; try done; destruct s;
    try reflexivity; rewrite Z.compare_refl, Pcompare_refl; reflexivity.
Qed.

Lemma SFeqb_finite_inv s1 m1 e1 s2 m2 e2 :
  SFeqb (S754_finite s1 m1 e1) (S754_finite s2 m2 e2) = true →
  s1 = s2 ∧ m1 = m2 ∧ e1 = e2.
Proof.
  unfold SFeqb. simpl.
  destruct s1, s2; try discriminate;
    destruct (Z.compare_spec e1 e2); try discriminate;
    destruct (Pos.compare_cont Eq m1 m2) eqn:Em; try discriminate;
    apply Pcompare_Eq_eq in Em; auto.
Qed.

Lemma SFeqb_true_iff (x y : spec_float) :
  SFeqb x y = true ↔
  x ≠ S754_nan ∧ (x = y ∨ ∃ s s', x = S754_zero s ∧ y = S754_zero s').
Proof.
  split.
  - destruct x as [s1|s1| |s1 m1 e1], y as [s2|s2| |s2 m2 e2];
      try (unfold SFeqb; simpl; repeat match goal with b : bool |- _ => destruct b end;
           discriminate).
    + intros _. split; [done|]. right. eauto.
    + unfold SFeqb. simpl. destruct s1, s2; try discriminate; by split; [|left].
    + intros (-> & -> & ->)%SFeqb_finite_inv. by split; [|left].
  - intros [Hnan [<-|(s & s' & -> & ->)]]; [by apply SFeqb_refl|reflexivity].
Qed.

Lemma shr_1_nonneg mrs : 0 <= shr_m mrs → 0 <= shr_m (shr_1 mrs).
Proof.
  destruct mrs as [m r s]. simpl.
  destruct m as [|[p|p|]|p]; simpl; lia.
Qed.

Lemma iter_pos_shr_1_nonneg n mrs :
  0 <= shr_m mrs → 0 <= shr_m (SpecFloat.iter_pos shr_1 n mrs).
Proof.
  revert mrs. induction n as [n IH|n IH|]; intros mrs H; simpl.
  - apply IH, IH. by apply shr_1_nonneg.
  - by apply IH, IH.
  - by apply shr_1_nonneg.
Qed.

Lemma shr_fexp_nonneg prec emax m e l :
  0 <= m → 0 <= shr_m (shr_fexp prec emax m e l).1.
Proof.
  intros Hm. unfold shr_fexp, shr.
  assert (0 <= shr_m (shr_record_of_loc m l)) by (by destruct l as [|[]]).
  destruct (_ - e); simpl; try done. by apply iter_pos_shr_1_nonneg.
Qed.

Lemma round_nearest_even_nonneg m l : 0 <= m → 0 <= round_nearest_even m l.
Proof.
  intros Hm. destruct l as [|[]]; simpl; try lia. destruct (Z.even m); lia.
Qed.

Lemma binary_round_aux_not_nan prec emax s m e l :
  0 <= m → binary_round_aux prec emax s m e l ≠ S754_nan.
Proof.
  intros Hm. unfold binary_round_aux.
  pose proof (shr_fexp_nonneg prec emax m e l Hm) as H1.
  destruct (shr_fexp prec emax m e l) as [mrs' e']. simpl in H1.
  pose proof (shr_fexp_nonneg prec emax _ e' loc_Exact
                (round_nearest_even_nonneg _ (loc_of_shr_record mrs') H1)) as H2.
  destruct (shr_fexp prec emax _ e' loc_Exact) as [mrs'' e'']. simpl in H2.
  destruct (shr_m mrs'') as [|q|q]; [done| |lia].
  by destruct (_ <=? _).
Qed.

Lemma Number_BigInt_not_nan z : Number (BigInt z) ≠ S754_nan.
Proof.
  unfold Number, binary_normalize, binary_round. destruct z as [|p|p]; [done| |];
    destruct (shl_align _ _ _) as [mz ez]; apply binary_round_aux_not_nan; lia.
Qed.

Lemma digits2_pos_size p : digits2_pos p = Pos.size p.
Proof. induction p; simpl; congruence. Qed.

Lemma digits2_pos_small p : Z.pos p < 2 ^ 53 → Z.pos (digits2_pos p) <= 53.
Proof.
  intros Hp. rewrite digits2_pos_size.
  pose proof (Pos.size_le p) as Hle.
  apply Pos2Z.pos_le_pos in Hle. rewrite Pos2Z.inj_pow in Hle.
  change (Z.pos p~0) with (2 * Z.pos p) in Hle.
  destruct (Z_le_gt_dec (Z.pos (Pos.size p)) 53) as [|Hgt]; [done|].
  assert (2 ^ 54 <= 2 ^ Z.pos (Pos.size p)) by (apply Z.pow_le_mono_r; lia).
  change (2 ^ 54) with (2 * 2 ^ 53) in *. lia.
Qed.

Lemma iter_xO_mul p k : Z.pos (Pos.iter xO p k) = Z.pos p * 2 ^ Z.pos k.
Proof.
  induction k as [|k IH] using Pos.peano_ind.
  - simpl. lia.
  - rewrite Pos.iter_succ, Pos2Z.inj_succ, Z.pow_succ_r by lia.
    change (Z.pos (Pos.iter xO p k)~0) with (2 * Z.pos (Pos.iter xO p k)).
    rewrite IH. lia.
Qed.

Lemma iter_xO_digits p k :
  digits2_pos (Pos.iter xO p k) = (digits2_pos p + k)%positive.
Proof.
  induction k as [|k IH] using Pos.peano_ind.
  - simpl. lia.
  - rewrite Pos.iter_succ. simpl. rewrite IH. lia.
Qed.

Lemma shr_fexp_aligned mz ez :
  Z.pos (digits2_pos mz) = 53 → -1074 <= ez →
  shr_fexp 53 1024 (Z.pos mz) ez loc_Exact =
  (Build_shr_record (Z.pos mz) false false, ez).
Proof.
  intros Hd He. unfold shr_fexp, fexp, emin. simpl Zdigits2. rewrite Hd.
  replace (Z.max (53 + ez - 53) (3 - 1024 - 53) - ez) with 0 by lia.
  reflexivity.
Qed.

Lemma binary_round_aux_aligned s mz ez :
  Z.pos (digits2_pos mz) = 53 → -1074 <= ez <= 971 →
  binary_round_aux 53 1024 s (Z.pos mz) ez loc_Exact = S754_finite s mz ez.
Proof.
  intros Hd He. unfold binary_round_aux.
  rewrite shr_fexp_aligned by lia. simpl.
  rewrite shr_fexp_aligned by lia. simpl.
  change (1024 - 53) with 971. destruct (Z.leb_spec ez 971); [reflexivity|lia].
Qed.

Lemma binary_round_small s p :
  Z.pos p < 2 ^ 53 →
  ∃ mz ez, binary_round 53 1024 s p 0 = S754_finite s mz ez ∧
           ez <= 0 ∧ Z.pos mz = Z.pos p * 2 ^ (- ez).
Proof.
  intros Hp. pose proof (digits2_pos_small p Hp) as Hd.
  unfold binary_round, shl_align, fexp, emin.
  replace (Z.max (Z.pos (digits2_pos p) + 0 - 53) (3 - 1024 - 53))
    with (Z.pos (digits2_pos p) - 53) by lia.
  destruct (Z.pos (digits2_pos p) - 53 - 0) as [|k|k] eqn:Ek; [| lia |].
  - exists p, 0. rewrite binary_round_aux_aligned by lia.
    split; [reflexivity|]. simpl. lia.
  - exists (Pos.iter xO p k), (Z.pos (digits2_pos p) - 53).
    rewrite binary_round_aux_aligned.
    + split; [reflexivity|]. split; [lia|]. rewrite iter_xO_mul.
      f_equal. f_equal. lia.
    + rewrite iter_xO_digits. lia.
    + lia.
Qed.

Lemma binary_round_exact s p :
  Z.pos p <= 2 ^ 53 →
  ∃ mz ez, binary_round 53 1024 s p 0 = S754_finite s mz ez ∧
           Z.pos p * 2 ^ Z.max 0 (- ez) = Z.pos mz * 2 ^ Z.max 0 ez.
Proof.
  intros Hp. destruct (Z.eq_dec (Z.pos p) (2 ^ 53)) as [Heq|Hne].
  - injection Heq as ->. exists (2 ^ 52)%positive, 1. by vm_compute.
  - destruct (binary_round_small s p) as (mz & ez & Hr & He & Hm); [lia|].
    exists mz, ez. split; [assumption|].
    rewrite (Z.max_r 0 (- ez)), (Z.max_l 0 ez) by lia. lia.
Qed.

Lemma Number_BigInt_injective n m :
  Z.abs n <= 2 ^ 53 → Z.abs m <= 2 ^ 53 →
  SFeqb (Number (BigInt n)) (Number (BigInt m)) = true → n = m.
Proof.
  intros Hn Hm. unfold Number, binary_normalize.
  destruct n as [|p|p], m as [|q|q]; try reflexivity;
    try (destruct (binary_round_exact false p) as (mp & ep & -> & Hp); [lia|]);
    try (destruct (binary_round_exact true p) as (mp & ep & -> & Hp); [lia|]);
    try (destruct (binary_round_exact false q) as (mq & eq & -> & Hq); [lia|]);
    try (destruct (binary_round_exact true q) as (mq & eq & -> & Hq); [lia|]);
    try discriminate;
    intros (Hs & -> & ->)%SFeqb_finite_inv; try discriminate;
    assert (0 < 2 ^ Z.max 0 (- eq)) by (apply Z.pow_pos_nonneg; lia);
    f_equal; nia.
Qed.

(** C9: [equals(create(n), create(n))] is true for every bigint address and
    for every number other than NaN; for integer addresses [n] and [m] of
    absolute value at most 2^53, [equals(create(n), create(m))] is true
    exactly when [n = m]; for addresses given as numbers it is true exactly
    when they are the same number (zeros of either sign are the same, NaN is
    not); and [value(create(v))] is [Number(v)]. *)
Theorem UnsafePointer_equals_create :
  (∀ v, Number v ≠ S754_nan →
        UnsafePointer.equals (UnsafePointer.create v) (UnsafePointer.create v) = true) ∧
  (∀ n, UnsafePointer.equals (UnsafePointer.create (BigInt n))
                             (UnsafePointer.create (BigInt n)) = true) ∧
  (∀ x y, UnsafePointer.equals (UnsafePointer.create (Num x))
                               (UnsafePointer.create (Num y)) = true ↔
          x ≠ S754_nan ∧ (x = y ∨ ∃ s s', x = S754_zero s ∧ y = S754_zero s')) ∧
  (∀ n m, Z.abs n <= 2 ^ 53 → Z.abs m <= 2 ^ 53 →
          (UnsafePointer.equals (UnsafePointer.create (BigInt n))
                                (UnsafePointer.create (BigInt m)) = true ↔ n = m)) ∧
  (∀ v, UnsafePointer.value (UnsafePointer.create v) = Number v).
Proof.
  unfold UnsafePointer.equals, UnsafePointer.create, UnsafePointer.value.
  split; [|split; [|split; [|split]]].
  - intros v Hv. by apply SFeqb_refl.
  - intros n. apply SFeqb_refl, Number_BigInt_not_nan.
  - intros x y. apply SFeqb_true_iff.
  - intros n m Hn Hm. split.
    + by apply Number_BigInt_injective.
    + intros ->. apply SFeqb_refl, Number_BigInt_not_nan.
  - reflexivity.
Qed.

Lemma UnsafePointer_equals_create_witness :
  UnsafePointer.equals (UnsafePointer.create (BigInt 4096))
                       (UnsafePointer.create (BigInt 4097)) = true ↔ 4096 = 4097.
Proof.
  apply (proj1 (proj2 (proj2 (proj2 UnsafePointer_equals_create))) 4096 4097).
  - vm_compute. discriminate.
  - vm_compute. discriminate.
Defined.

(** Two distinct addresses above 2^53 that [create] maps to the same number. *)
Lemma UnsafePointer_equals_wide_addresses :
  9007199254740992 ≠ 9007199254740993 ∧
  UnsafePointer.equals (UnsafePointer.create (BigInt 9007199254740992))
                       (UnsafePointer.create (BigInt 9007199254740993)) = true.
Proof. split; [discriminate|]. vm_compute. reflexivity. Qed.

(** The two addresses of the scenario, given as bigints and as numbers. *)
Example UnsafePointer_scenario :
  UnsafePointer.equals (UnsafePointer.create (BigInt 4096))
                       (UnsafePointer.create (BigInt 4096)) = true ∧
  UnsafePointer.equals (UnsafePointer.create (BigInt 4096))
                       (UnsafePointer.create (BigInt 4097)) = false ∧
  UnsafePointer.equals
    (UnsafePointer.create (Num (S754_finite false 4503599627370496 (-40))))
    (UnsafePointer.create (BigInt 4096)) = true.
Proof. repeat split. Qed.

(** The same two low bits under a tag in the top byte are lost. *)
Example UnsafePointer_tagged_addresses :
  UnsafePointer.equals (UnsafePointer.create (BigInt (2 ^ 56 + 4096)))
                       (UnsafePointer.create (BigInt (2 ^ 56 + 4097))) = true.
Proof. vm_compute. reflexivity. Qed.

(** NaN is not equal to itself. *)
Example UnsafePointer_equals_nan :
  UnsafePointer.equals (UnsafePointer.create (Num S754_nan))
                       (UnsafePointer.create (Num S754_nan)) = false.
Proof. reflexivity. Qed.

End Binary64.

(** * Further properties *)

(** ** The spawned process over time *)

Lemma take_le_split {A} (l : list A) (n m : nat) :
  (n ≤ m)%nat → take m l = take n l ++ take (m - n) (drop n l).
Proof. intros H. rewrite take_take_drop. f_equal. lia. Qed.

Lemma status_promise_stable (child : ChildProcess) (n m : nat) :
  (n ≤ m)%nat → status_promise child n ≠ Pending →
  status_promise child m = status_promise child n.
Proof.
  intros Hnm Hset. unfold status_promise in *.
  rewrite (take_le_split _ n m Hnm), fold_left_app.
  by apply status_fold_settled.
Qed.

Lemma output_promise_stable (child : ChildProcess) (n m : nat) :
  (n ≤ m)%nat → output_promise child n ≠ Pending →
  output_promise child m = output_promise child n.
Proof.
  intros Hnm Hset. unfold output_promise in *.
  rewrite (take_le_split _ n m Hnm), fold_left_app.
  by rewrite output_fold_settled.
Qed.

Lemma first_exit_None (evs : list ChildEvent) :
  first_exit evs = None ↔ Forall (fun ev => ¬ is_exit ev) evs.
Proof.
  induction evs as [|ev evs IH]; simpl.
  - split; [constructor|done].
  - rewrite Forall_cons. destruct ev; simpl; rewrite ?IH; try tauto.
    split; [discriminate|]. intros [H _]. by destruct H.
Qed.

(** X1: the status promise settles once.  When it is fulfilled after [n]
    host events it holds the same status after any later event, further
    ["exit"] reports included. *)
Theorem status_settles_once (h : Host) (c : Command) (p : SpawnedProcess)
    (n m : nat) (st : CommandStatus) :
  spawn h c = Normal p → (n ≤ m)%nat →
  status p n = Fulfilled st → status p m = Fulfilled st.
Proof.
  intros (child & _ & _ & _ & -> & _)%spawn_normal_inv Hnm Hst.
  rewrite (status_promise_stable child n m Hnm); [assumption|].
  by rewrite Hst.
Qed.

Lemma status_settles_once_witness :
  ∃ p, spawn (host_of (mkChild false false false
                         [ev_exit (Some 2%Z) None; ev_exit (Some 0%Z) None]))
             (new_Command "prog" None) = Normal p ∧
       status p 2 = Fulfilled (mkStatus false 2 None).
Proof.
  eexists. split; [reflexivity|].
  apply (status_settles_once
           (host_of (mkChild false false false
                       [ev_exit (Some 2%Z) None; ev_exit (Some 0%Z) None]))
           (new_Command "prog" None) _ 1 2).
  - reflexivity.
  - lia.
  - reflexivity.
Defined.

(** X2: the status promise is pending exactly as long as the host has not
    reported the exit: data, end and error events of the streams and an
    ["error"] event of the child leave it pending. *)
Theorem status_pending_iff_no_exit (h : Host) (c : Command)
    (p : SpawnedProcess) (child : ChildProcess) (n : nat) :
  spawn h c = Normal p → launch h c = Normal child →
  (status p n = Pending ↔
   Forall (fun ev => ¬ is_exit ev) (take n (child_events child))).
Proof.
  intros (child' & Hl & _ & _ & -> & _)%spawn_normal_inv Hchild.
  rewrite Hchild in Hl. injection Hl as <-.
  rewrite <- first_exit_None. unfold status_promise.
  rewrite status_fold_pending.
  by destruct (first_exit _) as [[? ?]|].
Qed.

Lemma status_pending_iff_no_exit_witness :
  ∃ p, spawn (host_of (mkChild false true false
                         [ev_stdout_data [Byte.x68]; ev_stdout_end;
                          ev_error (ENOENT "prog")]))
             (new_Command "prog" None) = Normal p ∧
       status p 3 = Pending.
Proof.
  eexists. split; [reflexivity|].
  apply (proj2 (status_pending_iff_no_exit
                  (host_of (mkChild false true false
                              [ev_stdout_data [Byte.x68]; ev_stdout_end;
                               ev_error (ENOENT "prog")]))
                  (new_Command "prog" None) _ _ 3 eq_refl eq_refl)).
  simpl. repeat constructor; simpl; tauto.
Defined.

Lemma drain_open_app (pre rest : list ChildEvent) (acc : list Byte.byte) :
  Forall stdout_open pre →
  drain acc (pre ++ rest) = drain (acc ++ concat (stdout_data pre)) rest.
Proof.
  intros Hopen. revert acc.
  induction Hopen as [|ev pre Hev _ IH]; intros acc; simpl.
  - by rewrite app_nil_r.
  - destruct ev; simpl in *; try apply IH; try contradiction.
    rewrite IH. by rewrite app_assoc.
Qed.

Lemma drain_open_pending (pre : list ChildEvent) (acc : list Byte.byte) :
  Forall stdout_open pre → drain acc pre = Pending.
Proof.
  intros Hopen. rewrite <- (app_nil_r pre). by rewrite drain_open_app.
Qed.

Lemma take_past_middle {A} (pre post : list A) (x : A) (n : nat) :
  (length pre < n)%nat →
  take n (pre ++ x :: post) = pre ++ x :: take (n - S (length pre)) post.
Proof.
  intros Hn. rewrite take_app, take_ge by lia.
  destruct (n - length pre) as [|k] eqn:E; [lia|].
  simpl. do 3 f_equal. lia.
Qed.

(** X3: with a stdout stream, the promise of [output()] is pending as long
    as the stream has neither ended nor failed, and when the stream ends it
    is fulfilled with the bytes of all the chunks received, in the order of
    arrival. *)
Theorem output_concatenates (h : Host) (c : Command) (p : SpawnedProcess)
    (child : ChildProcess) (pre post : list ChildEvent) (n : nat) :
  spawn h c = Normal p → launch h c = Normal child →
  child_stdout child = true →
  child_events child = pre ++ ev_stdout_end :: post →
  Forall stdout_open pre →
  ((n ≤ length pre)%nat → output p n = Pending) ∧
  ((length pre < n)%nat → output p n = Fulfilled (concat (stdout_data pre))).
Proof.
  intros (child' & Hl & _ & _ & _ & ->)%spawn_normal_inv Hchild Hs Hev Hopen.
  rewrite Hchild in Hl. injection Hl as <-.
  rewrite output_promise_drains, Hev by assumption. split; intros Hn.
  - rewrite take_app_le by assumption.
    apply drain_open_pending. by apply Forall_take.
  - rewrite take_past_middle by assumption.
    by rewrite drain_open_app.
Qed.

Lemma output_concatenates_witness :
  ∃ p, spawn (host_of chatty_child) (new_Command "prog" None) = Normal p ∧
       (((2 ≤ 3)%nat → output p 2 = Pending) ∧
        ((3 < 4)%nat → output p 4 = Fulfilled [Byte.x68; Byte.x69; Byte.x0a])).
Proof.
  eexists. split; [reflexivity|]. split.
  - apply (output_concatenates (host_of chatty_child) (new_Command "prog" None)
             _ chatty_child
             [ev_stdout_data [Byte.x68]; ev_exit (Some 0%Z) None;
              ev_stdout_data [Byte.x69; Byte.x0a]] [] 2);
      try reflexivity.
    repeat constructor.
  - apply (output_concatenates (host_of chatty_child) (new_Command "prog" None)
             _ chatty_child
             [ev_stdout_data [Byte.x68]; ev_exit (Some 0%Z) None;
              ev_stdout_data [Byte.x69; Byte.x0a]] [] 4);
      try reflexivity.
    repeat constructor.
Defined.

(** X4: when the stdout stream fails before it has ended, the promise of
    [output()] is rejected with the error of the stream, and so is the
    promise of [Command.output()], whether or not the exit has been
    reported. *)
Theorem output_stream_error (h : Host) (c : Command) (p : SpawnedProcess)
    (child : ChildProcess) (pre post : list ChildEvent) (err : JsError)
    (n : nat) :
  spawn h c = Normal p → launch h c = Normal child →
  child_stdout child = true →
  child_events child = pre ++ ev_stdout_error err :: post →
  Forall stdout_open pre →
  (length pre < n)%nat →
  output p n = Rejected err ∧ Command_output_at h c n = Rejected err.
Proof.
  intros Hp Hchild Hs Hev Hopen Hn. unfold Command_output_at. rewrite Hp.
  apply spawn_normal_inv in Hp as (child' & Hl & _ & _ & Hst & ->).
  rewrite Hchild in Hl. injection Hl as <-.
  assert (output_promise child n = Rejected err) as ->.
  { rewrite output_promise_drains, Hev, take_past_middle by assumption.
    by rewrite drain_open_app. }
  split; [reflexivity|].
  pose proof (status_never_rejected child n) as Hnr. rewrite Hst.
  destruct (status_promise child n); simpl; try reflexivity. by destruct (Hnr e).
Qed.

Lemma output_stream_error_witness :
  ∃ p, spawn (host_of failing_child) (new_Command "prog" None) = Normal p ∧
       output p 3 = Rejected (Error "read EIO") ∧
       Command_output_at (host_of failing_child) (new_Command "prog" None) 3
       = Rejected (Error "read EIO").
Proof.
  eexists. split; [reflexivity|].
  apply (output_stream_error (host_of failing_child) (new_Command "prog" None)
           _ failing_child
           [ev_exit (Some 0%Z) None; ev_stdout_data [Byte.x68]] [ev_stdout_end]
           (Error "read EIO") 3); try reflexivity.
  - repeat constructor.
  - simpl. lia.
Defined.

(** X5: [Command.output()] is an async method: when the host's spawn call
    throws, it does not throw but returns a promise that is rejected with
    that error from the start. *)
Theorem Command_output_launch_failure (h : Host) (c : Command) (e : JsError) :
  launch h c = Throw e → ∀ n, Command_output_at h c n = Rejected e.
Proof.
  intros Hl n. unfold Command_output_at. by rewrite spawn_launch, Hl.
Qed.

Lemma Command_output_launch_failure_witness :
  Command_output_at strict_host (new_Command "no-such-program" None) 0
  = Rejected (ENOENT "no-such-program").
Proof.
  apply (Command_output_launch_failure strict_host
           (new_Command "no-such-program" None)).
  reflexivity.
Defined.

(** X6: as long as the host has not reported the exit of the child,
    [Command.output()] is not fulfilled; for a child whose exit is never
    reported (a program Node could not launch, say) it never is. *)
Theorem Command_output_needs_exit (h : Host) (c : Command)
    (child : ChildProcess) (n : nat) (r : CommandOutput) :
  launch h c = Normal child →
  Forall (fun ev => ¬ is_exit ev) (take n (child_events child)) →
  Command_output_at h c n ≠ Fulfilled r.
Proof.
  intros Hl Hno. unfold Command_output_at. rewrite spawn_launch, Hl. simpl.
  apply first_exit_None in Hno. rewrite (status_pending_before_exit _ _ Hno).
  by destruct (output_promise child n).
Qed.

Lemma Command_output_needs_exit_witness :
  Command_output_at node_host (new_Command "no-such-program" None) 1
  ≠ Fulfilled (mkOutput false 1 None [] []).
Proof.
  apply (Command_output_needs_exit node_host
           (new_Command "no-such-program" None)
           (mkChild false false false [ev_error (ENOENT "no-such-program")])
           1 (mkOutput false 1 None [] [])).
  - reflexivity.
  - simpl. repeat constructor. simpl. tauto.
Defined.

(** X7: the promise of [Command.output()] settles once: fulfilled or
    rejected after [n] host events, it is in the same state after any later
    event. *)
Theorem Command_output_settles_once (h : Host) (c : Command) (n m : nat) :
  (n ≤ m)%nat → Command_output_at h c n ≠ Pending →
  Command_output_at h c m = Command_output_at h c n.
Proof.
  intros Hnm. unfold Command_output_at. rewrite spawn_launch.
  destruct (launch h c) as [child|e]; simpl; [|reflexivity].
  pose proof (status_promise_stable child n m Hnm) as Hst.
  pose proof (output_promise_stable child n m Hnm) as Hout.
  pose proof (status_never_rejected child m) as Hnr.
  destruct (status_promise child n) as [|st|e1] eqn:En;
    destruct (output_promise child n) as [|bytes|e2] eqn:Eo; simpl;
    try done; intros _;
    try (rewrite Hst by done); try (rewrite Hout by done); try reflexivity.
  destruct (status_promise child m) as [|st|e1]; simpl; try reflexivity.
  by destruct (Hnr e1).
Qed.

Lemma Command_output_settles_once_witness :
  Command_output_at node_host
    (new_Command "echo"
       (Some (mkOptions (Some ["hello"]) None None None (Some "piped") None))) 7
  = Command_output_at node_host
    (new_Command "echo"
       (Some (mkOptions (Some ["hello"]) None None None (Some "piped") None))) 3.
Proof.
  apply (Command_output_settles_once node_host
           (new_Command "echo"
              (Some (mkOptions (Some ["hello"]) None None None (Some "piped") None)))
           3 7).
  - lia.
  - discriminate.
Defined.

(** X24: what a fulfilled [Command.output()] holds.  [success] is true
    exactly when the first exit report carries the code 0, [code] is that
    code, or 0 when the report has none, [signal] is the reported signal
    name, [stdout] holds the bytes of the stdout stream up to its end, or
    nothing when the child has no stdout stream, and [stderr] is empty. *)
Theorem Command_output_result (h : Host) (c : Command) (child : ChildProcess)
    (n : nat) (r : CommandOutput) :
  launch h c = Normal child →
  Command_output_at h c n = Fulfilled r →
  ∃ exit_code exit_signal,
    first_exit (take n (child_events child)) = Some (exit_code, exit_signal) ∧
    (out_success r = true ↔ exit_code = Some 0%Z) ∧
    out_code r = default 0%Z exit_code ∧
    (exit_signal = None → out_signal r = None) ∧
    (∀ s, exit_signal = Some s → s ≠ "" → out_signal r = Some s) ∧
    out_stderr r = [] ∧
    (if child_stdout child
     then drain [] (take n (child_events child)) = Fulfilled (out_stdout r)
     else out_stdout r = []).
Proof.
  intros Hl. unfold Command_output_at. rewrite spawn_launch, Hl. simpl.
  unfold status_promise. rewrite status_fold_pending.
  destruct (first_exit _) as [[exit_code exit_signal]|]; simpl;
    destruct (output_promise child n) as [|bytes|e] eqn:Eo; simpl;
    try discriminate.
  intros [= <-]. exists exit_code, exit_signal. simpl.
  split; [reflexivity|]. split; [|split; [|split; [|split; [|split]]]].
  - destruct exit_code as [[| |]|]; split; congruence.
  - by destruct exit_code.
  - by intros ->.
  - intros s -> Hs. by destruct (String.eqb_spec s "").
  - reflexivity.
  - destruct (child_stdout child) eqn:Hs.
    + by rewrite <- Eo, output_promise_drains.
    + rewrite output_promise_no_stream in Eo by assumption. congruence.
Qed.

Lemma Command_output_result_witness :
  ∃ exit_code exit_signal,
    first_exit (take 4 (child_events chatty_child)) = Some (exit_code, exit_signal) ∧
    (true = true ↔ exit_code = Some 0%Z) ∧
    0%Z = default 0%Z exit_code ∧
    (exit_signal = None → (None : option string) = None) ∧
    (∀ s, exit_signal = Some s → s ≠ "" → None = Some s) ∧
    ([] : list Byte.byte) = [] ∧
    drain [] (take 4 (child_events chatty_child))
      = Fulfilled [Byte.x68; Byte.x69; Byte.x0a].
Proof.
  apply (Command_output_result (host_of chatty_child) (new_Command "prog" None)
           chatty_child 4
           (mkOutput true 0 None [Byte.x68; Byte.x69; Byte.x0a] [])).
  - reflexivity.
  - reflexivity.
Defined.

(** ** The environment *)

(** X8: when the options carry overrides, the variables of the child's
    environment are exactly those of [process.env] and those of the
    overrides; with an empty overrides object the child's environment is
    [process.env] itself. *)
Theorem spawn_env_domain (h : Host) (o : CommandOptions)
    (overrides : gmap string string) :
  o_env o = Some overrides →
  ∃ child_env,
    env (spawnOptions h o) = Some child_env ∧
    dom child_env = dom (process_env h) ∪ dom overrides ∧
    (overrides = ∅ → child_env = process_env h).
Proof.
  intros Ho. exists (spread_env (process_env h) overrides). simpl. rewrite Ho.
  split; [reflexivity|]. unfold spread_env. split.
  - rewrite dom_union_L. apply (comm_L (∪)).
  - intros ->. by rewrite (left_id_L ∅ (∪)).
Qed.

Lemma spawn_env_domain_witness :
  ∃ child_env,
    env (spawnOptions node_host
           (mkOptions None None (Some {[ "TZ" := "UTC" ]}) None None None))
    = Some child_env ∧
    dom child_env = dom (process_env node_host) ∪ dom ({[ "TZ" := "UTC" ]} : gmap string string) ∧
    (({[ "TZ" := "UTC" ]} : gmap string string) = ∅ → child_env = process_env node_host).
Proof.
  apply (spawn_env_domain node_host
           (mkOptions None None (Some {[ "TZ" := "UTC" ]}) None None None)).
  reflexivity.
Defined.





(** ** More on the FFI type adapter *)

(** X11: two tags get the same host type exactly when they are the same tag
    or one of the three alias pairs: [usize] is [u64], [isize] is [i64] and
    [buffer] is [pointer]. *)
Theorem transformFFIType_collisions (t1 t2 : string) (h : FFIType.t) :
  transformFFIType t1 = Normal h →
  (transformFFIType t2 = Normal h ↔
   t2 ∈ ffi_tags ∧ (t1 = t2 ∨ ffi_alias t1 t2)).
Proof.
  intros H1. pose proof (transformFFIType_normal_inv _ _ H1) as I1.
  split.
  - intros H2. pose proof (transformFFIType_normal_inv _ _ H2) as I2.
    split; [assumption|].
    apply list_elem_of_In in I1, I2. simpl in I1, I2.
    repeat destruct I1 as [<-|I1]; try contradiction;
      vm_compute in H1; injection H1 as <-;
      repeat destruct I2 as [<-|I2]; try contradiction;
      vm_compute in H2; try discriminate H2;
      first [ left; reflexivity
            | right; apply list_elem_of_In; simpl;
              repeat (first [left; reflexivity | right]) ].
  - intros [I2 [<-|Ha]]; [assumption|].
    apply list_elem_of_In in Ha. simpl in Ha.
    repeat destruct Ha as [[= <- <-]|Ha]; try contradiction;
      vm_compute in H1; injection H1 as <-; reflexivity.
Qed.

Lemma transformFFIType_collisions_witness :
  transformFFIType "buffer" = Normal FFIType.ptr ↔
  "buffer" ∈ ffi_tags ∧ ("pointer" = "buffer" ∨ ffi_alias "pointer" "buffer").
Proof.
  apply (transformFFIType_collisions "pointer" "buffer" FFIType.ptr).
  reflexivity.
Defined.

Lemma transformFFIType_unknown (tag : string) :
  (tag ∉ ffi_tags) →
  transformFFIType tag = Throw (Error ("FFI type not supported: " +:+ tag)).
Proof.
  intros Hout. destruct (transformFFIType tag) as [h|e] eqn:E.
  - apply transformFFIType_normal_inv in E. contradiction.
  - apply transformFFIType_throw_inv in E as [_ ->]. reflexivity.
Qed.

Lemma mapC_first_unknown (ok more : list string) (tag : string) :
  Forall (fun t => t ∈ ffi_tags) ok → (tag ∉ ffi_tags) →
  mapC transformFFIType (ok ++ tag :: more) =
  Throw (Error ("FFI type not supported: " +:+ tag)).
Proof.
  intros Hok Htag. induction Hok as [|t ok Ht _ IH]; simpl.
  - by rewrite (transformFFIType_unknown tag Htag).
  - destruct (transformFFIType_known t Ht) as [h ->]. simpl. by rewrite IH.
Qed.

Lemma dlopen_loop_skip_good (good rest : JsObject SymbolSpec)
    (acc : JsObject BunSymbol) :
  Forall (fun ns => sym_type ns.2 = None ∧
                    Forall (fun t => t ∈ ffi_tags) (entry_tags ns.2)) good →
  ∃ acc', dlopen_loop acc (good ++ rest) = dlopen_loop acc' rest.
Proof.
  intros Hgood. revert acc.
  induction Hgood as [|[name s] good [Hs Ht] _ IH]; intros acc; simpl.
  - by exists acc.
  - destruct (dlopen_entry_known acc name s Hs Ht) as (b & _ & ->). simpl.
    apply IH.
Qed.

(** X12: [dlopen] reports the first offending entry in property order, and
    within an entry the [type] key before any tag, and the parameter tags in
    order before the result tag.  Entries after the offending one are not
    looked at, and the host's call is not reached. *)
Theorem dlopen_first_offender (path : string) (good rest : JsObject SymbolSpec)
    (name : string) (s : SymbolSpec) :
  Forall (fun ns => sym_type ns.2 = None ∧
                    Forall (fun t => t ∈ ffi_tags) (entry_tags ns.2)) good →
  (is_Some (sym_type s) →
   ∀ Library (bun_dlopen : string → JsObject BunSymbol → Completion Library),
     dlopen bun_dlopen path (good ++ (name, s) :: rest) =
     Throw (Error "Symbol type notation not supported")) ∧
  (sym_type s = None →
   ∀ ok tag more,
     parameters s = ok ++ tag :: more →
     Forall (fun t => t ∈ ffi_tags) ok → (tag ∉ ffi_tags) →
     ∀ Library (bun_dlopen : string → JsObject BunSymbol → Completion Library),
       dlopen bun_dlopen path (good ++ (name, s) :: rest) =
       Throw (Error ("FFI type not supported: " +:+ tag))) ∧
  (sym_type s = None →
   Forall (fun t => t ∈ ffi_tags) (parameters s) → (result s ∉ ffi_tags) →
   ∀ Library (bun_dlopen : string → JsObject BunSymbol → Completion Library),
     dlopen bun_dlopen path (good ++ (name, s) :: rest) =
     Throw (Error ("FFI type not supported: " +:+ result s))).
Proof.
  intros Hgood.
  destruct (dlopen_loop_skip_good good ((name, s) :: rest) [] Hgood) as [acc El].
  unfold dlopen. rewrite El. simpl. unfold dlopen_entry.
  split; [|split].
  - intros [ty Hty] Library bun_dlopen. by rewrite Hty.
  - intros Hs ok tag more Hp Hok Htag Library bun_dlopen.
    by rewrite Hs, Hp, mapC_first_unknown.
  - intros Hs Hp Hr Library bun_dlopen. rewrite Hs.
    destruct (mapC_known _ Hp) as [a ->]. simpl.
    by rewrite (transformFFIType_unknown _ Hr).
Qed.

Lemma dlopen_first_offender_witness :
  dlopen sample_bun_dlopen "libc.so"
    ([("puts", mkSymbol None ["buffer"] "i32")] ++
     ("qsort", mkSymbol None ["pointer"; "usize"; "size_t"; "function"] "bogus")
     :: [("legacy", mkSymbol (Some "i32") [] "void")]) =
  Throw (Error "FFI type not supported: size_t").
Proof.
  apply (proj1 (proj2 (dlopen_first_offender "libc.so"
                  [("puts", mkSymbol None ["buffer"] "i32")]
                  [("legacy", mkSymbol (Some "i32") [] "void")]
                  "qsort"
                  (mkSymbol None ["pointer"; "usize"; "size_t"; "function"] "bogus")
                  ltac:(repeat constructor; simpl;
                        apply list_elem_of_In; simpl;
                        repeat (first [left; reflexivity | right]))))
          eq_refl ["pointer"; "usize"] "size_t" ["function"] eq_refl).
  - repeat constructor; apply list_elem_of_In; simpl;
      repeat (first [left; reflexivity | right]).
  - rewrite list_elem_of_In. simpl. intuition discriminate.
Defined.

(** ** [UnsafeCallback] *)

(** X13: [new UnsafeCallback(def, fn)] registers the callback with the
    handles of the parameter and result tags of [def], the very signature
    [dlopen] binds a symbol declared with the same [def] to, and takes the
    pointer of the host's callback; a [type] key in [def] is ignored.  When
    a tag of [def] is outside the enumeration the constructor throws the
    error of [transformFFIType] and no callback is registered. *)
Theorem UnsafeCallback_signature (def : SymbolSpec) :
  (Forall (fun t => t ∈ ffi_tags) (entry_tags def) →
   ∃ b, translates def b ∧
     (∀ CB Ptr Fn (new_JSCallback : Fn → BunSymbol → Completion CB)
        (cb_ptr : CB → Ptr) (fn : Fn),
        new_UnsafeCallback new_JSCallback cb_ptr def fn =
        cb ← new_JSCallback fn b; Normal (mkCallback cb (cb_ptr cb))) ∧
     (sym_type def = None →
      ∀ Library (bun_dlopen : string → JsObject BunSymbol → Completion Library)
        path name,
        dlopen bun_dlopen path [(name, def)] = bun_dlopen path [(name, b)])) ∧
  (Exists (fun t => t ∉ ffi_tags) (entry_tags def) →
   ∃ tag, (tag ∉ ffi_tags) ∧
     ∀ CB Ptr Fn (new_JSCallback : Fn → BunSymbol → Completion CB)
       (cb_ptr : CB → Ptr) (fn : Fn),
       new_UnsafeCallback new_JSCallback cb_ptr def fn =
       Throw (Error ("FFI type not supported: " +:+ tag))).
Proof.
  unfold entry_tags. split.
  - intros [Hp Hr]%Forall_app. rewrite Forall_singleton in Hr.
    destruct (mapC_known _ Hp) as [a Ea].
    destruct (transformFFIType_known _ Hr) as [r Er].
    exists (mkBunSymbol a r). split; [|split].
    + split; simpl; [by apply mapC_normal_inv|assumption].
    + intros CB Ptr Fn new_JSCallback cb_ptr fn. unfold new_UnsafeCallback.
      by rewrite Ea, Er.
    + intros Hs Library bun_dlopen path name. unfold dlopen. simpl.
      unfold dlopen_entry. by rewrite Hs, Ea, Er.
  - intros [Hp|Hr]%Exists_app.
    + destruct (mapC_unknown _ Hp) as [e He].
      destruct (mapC_throw_inv _ _ He) as (tag & _ & Hout & ->).
      exists tag. split; [assumption|].
      intros CB Ptr Fn new_JSCallback cb_ptr fn. unfold new_UnsafeCallback.
      by rewrite He.
    + apply Exists_cons in Hr as [Hr|Hr]; [|by apply Exists_nil in Hr].
      destruct (mapC transformFFIType (parameters def)) as [a|e] eqn:Ea.
      * exists (result def). split; [assumption|].
        intros CB Ptr Fn new_JSCallback cb_ptr fn. unfold new_UnsafeCallback.
        rewrite Ea. simpl. by rewrite (transformFFIType_unknown _ Hr).
      * destruct (mapC_throw_inv _ _ Ea) as (tag & _ & Hout & ->).
        exists tag. split; [assumption|].
        intros CB Ptr Fn new_JSCallback cb_ptr fn. unfold new_UnsafeCallback.
        by rewrite Ea.
Qed.

Lemma UnsafeCallback_signature_witness :
  ∃ b, translates (mkSymbol None ["i32"; "pointer"] "void") b ∧
     (∀ CB Ptr Fn (new_JSCallback : Fn → BunSymbol → Completion CB)
        (cb_ptr : CB → Ptr) (fn : Fn),
        new_UnsafeCallback new_JSCallback cb_ptr
          (mkSymbol None ["i32"; "pointer"] "void") fn =
        cb ← new_JSCallback fn b; Normal (mkCallback cb (cb_ptr cb))) ∧
     (sym_type (mkSymbol None ["i32"; "pointer"] "void") = None →
      ∀ Library (bun_dlopen : string → JsObject BunSymbol → Completion Library)
        path name,
        dlopen bun_dlopen path [(name, mkSymbol None ["i32"; "pointer"] "void")]
        = bun_dlopen path [(name, b)]).
Proof.
  apply (proj1 (UnsafeCallback_signature
                  (mkSymbol None ["i32"; "pointer"] "void"))).
  repeat constructor; apply list_elem_of_In; simpl;
    repeat (first [left; reflexivity | right]).
Defined.

(** ** Runtime detection and installation *)

Lemma ascii_lower_idem (c : ascii) : ascii_lower (ascii_lower c) = ascii_lower c.
Proof. by destruct c as [[] [] [] [] [] [] [] []]. Qed.

Lemma toLowerCase_idem (s : string) : toLowerCase (toLowerCase s) = toLowerCase s.
Proof.
  induction s as [|c s IH]; simpl; [reflexivity|].
  by rewrite ascii_lower_idem, IH.
Qed.

Lemma toLowerCase_empty (s : string) : toLowerCase s = "" ↔ s = "".
Proof. destruct s; simpl; split; congruence. Qed.

Lemma eqb_empty_lower (s : string) :
  String.eqb (toLowerCase s) "" = String.eqb s "".
Proof. by destruct s. Qed.

(** X14: the two revisions of [runtime.ts], the one that tests the user
    agent as it is and the one that lowers it first, detect the same
    runtime in every global scope. *)
Theorem runtime_revisions_agree (g : Globals) : runtime_lowered g = runtime g.
Proof.
  unfold runtime_lowered, runtime, test_i.
  destruct (navigator g) as [ua|]; [|reflexivity].
  by rewrite toLowerCase_idem.
Qed.

(** X15: the detection does not depend on the letter case of the user
    agent, nor on what is bound under [Deno]. *)
Theorem runtime_case_insensitive (g1 g2 : Globals) (ua1 ua2 : string) :
  navigator g1 = Some ua1 → navigator g2 = Some ua2 →
  toLowerCase ua1 = toLowerCase ua2 →
  runtime g1 = runtime g2.
Proof.
  intros H1 H2 Heq. unfold runtime, test_i. rewrite H1, H2, Heq.
  by rewrite <- (eqb_empty_lower ua1), <- (eqb_empty_lower ua2), Heq.
Qed.

Lemma runtime_case_insensitive_witness :
  runtime (mkGlobals None (Some "BUN/1.1.0"))
  = runtime (mkGlobals (Some NativeDeno) (Some "bun/1.1.0")).
Proof.
  apply (runtime_case_insensitive
           (mkGlobals None (Some "BUN/1.1.0"))
           (mkGlobals (Some NativeDeno) (Some "bun/1.1.0"))
           "BUN/1.1.0" "bun/1.1.0"); reflexivity.
Defined.




Lemma load_navigator (g : Globals) :
  navigator (load_deno_compat_node g).1 = navigator g ∧
  navigator (load_deno_compat_bun g).1 = navigator g ∧
  navigator (load_mod g).1 = navigator g.
Proof.
  assert (Hn : navigator (load_deno_compat_node g).1 = navigator g)
    by (unfold load_deno_compat_node; by destruct (Deno g)).
  assert (Hb : navigator (load_deno_compat_bun g).1 = navigator g).
  { unfold load_deno_compat_bun, load_deno_compat_node.
    destruct (Deno g); simpl; destruct (navigator g) as [ua|] eqn:E; simpl;
      try destruct (String.prefix "Bun" ua); simpl; by rewrite ?E. }
  split; [|split]; try assumption.
  unfold load_mod, isNode, isBun. by destruct (runtime g).
Qed.

Lemma runtime_after_load (g g' : Globals) :
  navigator g' = navigator g → runtime g' = runtime g.
Proof. intros H. unfold runtime. by rewrite H. Qed.

Lemma load_node_idem (g : Globals) :
  (load_deno_compat_node (load_deno_compat_node g).1).1
  = (load_deno_compat_node g).1.
Proof.
  unfold load_deno_compat_node. destruct (Deno g) eqn:E; simpl; [by rewrite E|done].
Qed.

Lemma load_bun_idem (g : Globals) :
  (load_deno_compat_bun (load_deno_compat_bun g).1).1
  = (load_deno_compat_bun g).1.
Proof.
  unfold load_deno_compat_bun, load_deno_compat_node.
  destruct g as [[d|] [ua|]]; simpl; try reflexivity;
    destruct (String.prefix "Bun" ua) eqn:Ep; simpl; by rewrite ?Ep.
Qed.

(** X17: installing is idempotent.  Evaluating the Node module, the Bun
    module or [mod.ts] a second time leaves the global scope as the first
    evaluation left it. *)
Theorem load_idempotent (g : Globals) :
  (load_deno_compat_node (load_deno_compat_node g).1).1
    = (load_deno_compat_node g).1 ∧
  (load_deno_compat_bun (load_deno_compat_bun g).1).1
    = (load_deno_compat_bun g).1 ∧
  (load_mod (load_mod g).1).1 = (load_mod g).1.
Proof.
  split; [apply load_node_idem|]. split; [apply load_bun_idem|].
  pose proof (runtime_after_load g (load_mod g).1
                (proj2 (proj2 (load_navigator g)))) as Hr.
  unfold load_mod at 1. unfold isNode, isBun. rewrite Hr.
  unfold load_mod, isNode, isBun.
  destruct (runtime g); simpl;
    [reflexivity | apply load_node_idem | apply load_bun_idem].
Qed.

(** X18: after the Node module or the Bun module has been evaluated the
    name [Deno] is bound, and so it is after [mod.ts] whenever the runtime
    was not detected as Deno. *)
Theorem Deno_bound_after_load (g : Globals) :
  is_Some (Deno (load_deno_compat_node g).1) ∧
  is_Some (Deno (load_deno_compat_bun g).1) ∧
  (runtime g ≠ deno → is_Some (Deno (load_mod g).1)).
Proof.
  assert (Hn : is_Some (Deno (load_deno_compat_node g).1))
    by (rewrite load_node_Deno; eauto).
  assert (Hb : is_Some (Deno (load_deno_compat_bun g).1)).
  { unfold load_deno_compat_bun.
    destruct (load_deno_compat_node g) as [g1 [[]|e]]; simpl in *; [|done].
    destruct (navigator g1) as [ua|]; [|done].
    destruct (String.prefix "Bun" ua); simpl; eauto. }
  split; [|split]; try assumption.
  unfold load_mod, isNode, isBun. by destruct (runtime g).
Qed.

Lemma Deno_bound_after_load_witness :
  is_Some (Deno (load_mod (mkGlobals None (Some "Bun/1.1.0"))).1).
Proof.
  apply (proj2 (proj2 (Deno_bound_after_load
                         (mkGlobals None (Some "Bun/1.1.0"))))).
  discriminate.
Defined.

Lemma prefix_Bun_test_i (ua : string) :
  String.prefix "Bun" ua = true → test_i "bun" ua = true ∧ ua ≠ "".
Proof.
  destruct ua as [|a [|b [|c rest]]]; cbn [String.prefix]; try discriminate;
    repeat match goal with
    | |- context [ascii_dec ?x ?y] =>
        destruct (ascii_dec x y) as [<-|]; cbn [String.prefix]
    end; try discriminate.
  intros _. split; [by destruct rest|discriminate].
Qed.

(** X19: after [mod.ts], [Deno] is the Bun adapter (the one with the FFI
    surface) exactly when it was that already, or the user agent starts
    with ["Bun"] and does not mention ["deno"] in any letter case.  A user
    agent that merely contains ["bun"] selects the Bun module without its
    adapter being installed. *)
Theorem Bun_adapter_installed (g : Globals) :
  Deno (load_mod g).1 = Some BunDenoCompat ↔
  Deno g = Some BunDenoCompat ∨
  ∃ ua, navigator g = Some ua ∧ String.prefix "Bun" ua = true ∧
        test_i "deno" ua = false.
Proof.
  unfold load_mod, isNode, isBun, load_deno_compat_bun, load_deno_compat_node.
  destruct g as [d [ua|]]; unfold runtime; simpl.
  - destruct (String.prefix "Bun" ua) eqn:Ep.
    + destruct (prefix_Bun_test_i ua Ep) as [Hb Hne].
      destruct (String.eqb_spec ua ""); [done|]. rewrite Hb.
      destruct (test_i "deno" ua) eqn:Ed; simpl.
      * split; [by left|]. intros [?|(ua' & [= <-] & _ & ?)]; congruence.
      * destruct d; simpl; rewrite Ep; simpl; split; eauto.
    + assert (∀ X : Prop, (X ↔ X ∨ ∃ ua0, Some ua = Some ua0 ∧
                 String.prefix "Bun" ua0 = true ∧ test_i "deno" ua0 = false)) as Hno.
      { intros X. split; [by left|].
        intros [?|(ua' & [= <-] & ? & _)]; [done|congruence]. }
      destruct (String.eqb ua ""); simpl.
      { destruct d as [v|]; simpl; [apply Hno|].
        split; [discriminate|]. intros [?|(ua' & [= <-] & ? & _)]; congruence. }
      destruct (test_i "deno" ua); simpl; [apply Hno|].
      destruct (test_i "bun" ua); simpl.
      * destruct d as [v|]; simpl; rewrite Ep; simpl; [apply Hno|].
        split; [discriminate|]. intros [?|(ua' & [= <-] & ? & _)]; congruence.
      * destruct d as [v|]; simpl; [apply Hno|].
        split; [discriminate|]. intros [?|(ua' & [= <-] & ? & _)]; congruence.
  - destruct d as [v|]; simpl.
    + split; [by left|]. by intros [?|(ua' & [=] & _)].
    + split; [discriminate|]. by intros [?|(ua' & [=] & _)].
Qed.

Lemma Bun_adapter_installed_witness :
  Deno (load_mod (mkGlobals (Some (OtherValue "polyfill")) (Some "Bun/1.1.0"))).1
  = Some BunDenoCompat.
Proof.
  apply (proj2 (Bun_adapter_installed
                  (mkGlobals (Some (OtherValue "polyfill")) (Some "Bun/1.1.0")))).
  right. exists "Bun/1.1.0". repeat split.
Defined.

Example Bun_adapter_lower_case_agent :
  runtime (mkGlobals None (Some "bun/1.1.0")) = bun ∧
  Deno (load_mod (mkGlobals None (Some "bun/1.1.0"))).1 = Some DenoCompat.
Proof. split; reflexivity. Qed.

(** ** [Deno.build.os] *)



(** ** [Deno.stdin.read] *)

(** X21: on a chunk of input [read] copies as much of the chunk as the
    buffer holds to the front of the buffer, resolves with the number of
    bytes copied and leaves the rest of the buffer as it was; the buffer
    keeps its length, [set] never runs out of bounds, and what does not fit
    is dropped.  On the end of the input it resolves with null and leaves
    the buffer alone. *)
Theorem stdin_read_fills_prefix (buffer chunk : list Byte.byte) :
  (∃ buffer',
     stdin_read buffer (stdin_data chunk) =
       Normal (buffer', Some (Nat.min (length chunk) (length buffer))) ∧
     length buffer' = length buffer ∧
     take (Nat.min (length chunk) (length buffer)) buffer'
       = take (length buffer) chunk ∧
     drop (Nat.min (length chunk) (length buffer)) buffer'
       = drop (length chunk) buffer) ∧
  stdin_read buffer stdin_end = Normal (buffer, None).
Proof.
  split; [|reflexivity].
  unfold stdin_read, Uint8Array_set. rewrite Nat.sub_0_r.
  set (k := Nat.min (length chunk) (length buffer)).
  assert (Hlen : length (take k chunk) = k) by (rewrite length_take; lia).
  rewrite Hlen. simpl.
  destruct (Nat.leb_spec k (length buffer)) as [Hk|Hk]; [|lia].
  simpl. eexists. split; [reflexivity|]. split; [|split].
  - rewrite length_app, Hlen, length_drop. lia.
  - rewrite take_app_length' by (symmetry; assumption).
    destruct (Nat.le_ge_cases (length chunk) (length buffer)) as [H|H].
    + replace k with (length chunk) by lia. by rewrite !take_ge by lia.
    + by replace k with (length buffer) by lia.
  - rewrite drop_app_length' by (symmetry; assumption).
    destruct (Nat.le_ge_cases (length chunk) (length buffer)) as [H|H].
    + by replace k with (length chunk) by lia.
    + replace k with (length buffer) by lia. by rewrite !drop_ge by lia.
Qed.

Example stdin_read_samples :
  stdin_read [Byte.x00; Byte.x00; Byte.x00; Byte.x00] (stdin_data [Byte.x68; Byte.x69])
    = Normal ([Byte.x68; Byte.x69; Byte.x00; Byte.x00], Some 2%nat) ∧
  stdin_read [Byte.x00; Byte.x00] (stdin_data [Byte.x68; Byte.x69; Byte.x21])
    = Normal ([Byte.x68; Byte.x69], Some 2%nat) ∧
  stdin_read [] (stdin_data [Byte.x68]) = Normal ([], Some 0%nat).
Proof. repeat split. Qed.

(** ** [Deno.FsFile] *)

(** X22: [seek] with a whence other than 0, 1 and 2 throws
    ["Invalid whence"] without calling the file handle. *)
Theorem FsFile_seek_invalid_whence {S} (fh : FileHandle S) (offset whence : Z)
    (s : S) :
  whence ≠ 0%Z → whence ≠ 1%Z → whence ≠ 2%Z →
  FsFile_seek fh offset whence s = (s, Throw (Error "Invalid whence")).
Proof.
  intros H0 H1 H2. unfold FsFile_seek.
  destruct (Z.eqb_spec whence 0); [done|].
  destruct (Z.eqb_spec whence 1); [done|].
  destruct (Z.eqb_spec whence 2); [done|].
  reflexivity.
Qed.

Lemma FsFile_seek_invalid_whence_witness :
  FsFile_seek sample_file 10 3 (4, 100)%nat
  = ((4, 100)%nat, Throw (Error "Invalid whence")).
Proof.
  apply (FsFile_seek_invalid_whence sample_file 10 3 (4, 100)%nat); discriminate.
Defined.




Example FsFile_seek_samples :
  FsFile_seek sample_file 7 0 (4, 100)%nat = ((7, 100)%nat, Normal 7%Z) ∧
  FsFile_seek sample_file 7 1 (4, 100)%nat = ((11, 100)%nat, Normal 11%Z) ∧
  FsFile_seek sample_file (-7) 2 (4, 100)%nat = ((93, 100)%nat, Normal 93%Z) ∧
  FsFile_seek sample_file (-7) 1 (4, 100)%nat
    = ((4, 100)%nat, Throw (Error "EINVAL: invalid argument, seek")).
Proof. repeat split. Qed.

(** [read] never resolves with 0: it resolves with null exactly when the
    file handle read no byte, and with the number of bytes read otherwise;
    the buffer is as the handle left it, and an error of the handle is
    passed on. *)
Lemma FsFile_read_null_at_zero {S} (fh : FileHandle S) (p : list Byte.byte)
    (s : S) :
  match fh_read fh p s with
  | (s', Normal (bytesRead, p')) =>
      FsFile_read fh p s =
      (s', Normal (if decide (bytesRead = 0%nat) then None else Some bytesRead, p'))
  | (s', Throw e) => FsFile_read fh p s = (s', Throw e)
  end ∧
  ∀ s' p', FsFile_read fh p s ≠ (s', Normal (Some 0%nat, p')).
Proof.
  unfold FsFile_read, mbind, HostM_bind, mret, HostM_ret.
  destruct (fh_read fh p s) as [s1 [[k p1]|e]]; simpl.
  - destruct k as [|k]; simpl; (split; [reflexivity|]); intros s' p'; congruence.
  - split; [reflexivity|]. intros s' p'. congruence.
Qed.
